(** * Credential providers of minio-js: a shallow embedding

    The TypeScript classes under [src/main/credentials] are embedded as
    Rocq modules, one per class, with the methods as functions on explicit
    object state.

    - [process.env] is a finite map from names to strings; an unset
      variable has no entry and reads as [undefined] ([None]).
    - Instants are epoch milliseconds, as [Date.now()] returns them,
      modelled in [Z].
    - A method that returns a [Promise] is split in two phases: the part
      that runs synchronously inside the call, and the part that runs when
      the promise settles (the [then] callbacks).  The second phase is a
      function of the object's state at that later time. *)

From Stdlib Require Import ZArith Ascii.
From stdpp Require Import base strings pretty gmap list.

Local Open Scope string_scope.
Local Open Scope list_scope.
Local Open Scope nat_scope.

(** ** Data model: [index.ts] *)

Inductive SignatureType :=
  | V4
  | Anonymous.

Record ICredentials := {
  accessKey : string;
  secretKey : string;
  sessionToken : option string;
  signerType : SignatureType
}.

Definition AnonymousCredentials : ICredentials :=
  {| accessKey := ""; secretKey := ""; sessionToken := None;
     signerType := Anonymous |}.

#[global] Instance SignatureType_eq_dec : EqDecision SignatureType.
Proof. solve_decision. Defined.

#[global] Instance ICredentials_eq_dec : EqDecision ICredentials.
Proof. solve_decision. Defined.

(** ** The JavaScript environment *)

(** Rejection reasons: an [Error] object ([new Error(msg)], the
    [SyntaxError] of [JSON.parse], a socket error) or a plain string
    ([Promise.reject("...")]). *)
Inductive Error :=
  | ErrorObject (name message : string)
  | Reason (value : string).

(** How a promise settles. *)
Inductive Outcome (A : Type) :=
  | Fulfilled (value : A)
  | Rejected (reason : Error).
Arguments Fulfilled {A} value.
Arguments Rejected {A} reason.

Record HttpResponse := {
  statusCode : Z;
  rawData : string
}.

(** What the program reads from outside: the process environment, the
    clock, and what [http.get] will answer for a URL (an ['error'] event
    or a response). *)
Record World := {
  process_env : gmap string string;
  Date_now : Z;
  http_get : string -> Error + HttpResponse
}.

(** The second phase of a promise-returning method of an object with
    state [S]: run when the promise settles, it may update the object and
    yields the outcome.  [None]: the promise does not settle. *)
Definition Promise (S A : Type) : Type := World -> S -> option (S * Outcome A).

Definition Promise_resolve {S A} (value : A) : Promise S A :=
  fun _ this => Some (this, Fulfilled value).

Definition Promise_reject {S A} (reason : Error) : Promise S A :=
  fun _ this => Some (this, Rejected reason).

(** A call followed by the settling of its promise, both in world [w]. *)
Definition await {S A} (call : S * Promise S A) (w : World)
  : option (S * Outcome A) :=
  let '(this, promise) := call in promise w this.

(** [interface IProvider]. *)
Class IProvider (P : Type) := {
  retrieve : P -> World -> P * Promise P ICredentials;
  isExpired : P -> World -> bool
}.

(** The interface's methods under names that the classes' own methods do
    not shadow. *)
Definition provider_retrieve {P} `{!IProvider P} : P -> World -> P * Promise P ICredentials :=
  retrieve.
Definition provider_isExpired {P} `{!IProvider P} : P -> World -> bool :=
  isExpired.

(** ** [class Expiry] (credentials.ts) *)
Module Expiry.

Record t := { expiration : Z }.

(** [constructor(public expiration: number = Date.now())] *)
Definition new (expiration : option Z) (w : World) : t :=
  {| expiration := default (Date_now w) expiration |}.

Definition setExpiration (this : t) (expiration window : Z) : t :=
  {| expiration :=
       if decide (window > 0)%Z then (expiration - window)%Z
       else expiration |}.

Definition isExpired (this : t) (w : World) : bool :=
  bool_decide (Date_now w > expiration this)%Z.

End Expiry.

(** ** [class StaticCred] (static.ts) *)
Module StaticCred.

Record t := { cred : ICredentials }.

(** [signerType: SignatureType = SignatureType.V4] *)
Definition new (accessKey secretKey : string) (sessionToken : option string)
    (signerType : option SignatureType) : t :=
  {| cred := {| accessKey := accessKey; secretKey := secretKey;
                sessionToken := sessionToken;
                signerType := default V4 signerType |} |}.

Definition retrieve (this : t) (w : World) : t * Promise t ICredentials :=
  (this, Promise_resolve (cred this)).

Definition isExpired (this : t) (w : World) : bool := false.

#[global] Instance provider : IProvider t :=
  Build_IProvider t retrieve isExpired.

End StaticCred.

(** ** [class EnvMinio] (env_minio.ts) *)
Module EnvMinio.

Record t := { retrieved : bool }.

(** [retrieved: boolean = false] *)
Definition new : t := {| retrieved := false |}.

(** The object literal built by [retrieve()]; destructuring defaults
    replace an unset variable by the empty string. *)
Definition read (env : gmap string string) : ICredentials :=
  let MINIO_ACCESS_KEY := default "" (env !! "MINIO_ACCESS_KEY") in
  let MINIO_SECRET_KEY := default "" (env !! "MINIO_SECRET_KEY") in
  {| accessKey := MINIO_ACCESS_KEY;
     secretKey := MINIO_SECRET_KEY;
     sessionToken := None;
     signerType :=
       if bool_decide (MINIO_ACCESS_KEY = "")
          || bool_decide (MINIO_SECRET_KEY = "")
       then Anonymous else V4 |}.

Definition retrieve (this : t) (w : World) : t * Promise t ICredentials :=
  let cred := read (process_env w) in
  ({| retrieved := true |}, Promise_resolve cred).

Definition isExpired (this : t) (w : World) : bool := negb (retrieved this).

#[global] Instance provider : IProvider t :=
  Build_IProvider t retrieve isExpired.

End EnvMinio.

(** ** [class EnvAWS] (env_aws.ts) *)
Module EnvAWS.

Record t := { retrieved : bool }.

Definition new : t := {| retrieved := false |}.

Definition read (env : gmap string string) : ICredentials :=
  let AWS_ACCESS_KEY_ID := default "" (env !! "AWS_ACCESS_KEY_ID") in
  let AWS_ACCESS_KEY := default "" (env !! "AWS_ACCESS_KEY") in
  let AWS_SECRET_ACCESS_KEY := default "" (env !! "AWS_SECRET_ACCESS_KEY") in
  let AWS_SECRET_KEY := default "" (env !! "AWS_SECRET_KEY") in
  let AWS_SESSION_TOKEN := env !! "AWS_SESSION_TOKEN" in
  let accessKey :=
    if bool_decide (AWS_ACCESS_KEY_ID = "") then AWS_ACCESS_KEY
    else AWS_ACCESS_KEY_ID in
  let secretKey :=
    if bool_decide (AWS_SECRET_ACCESS_KEY = "") then AWS_SECRET_KEY
    else AWS_SECRET_ACCESS_KEY in
  {| accessKey := accessKey;
     secretKey := secretKey;
     sessionToken := AWS_SESSION_TOKEN;
     signerType :=
       if bool_decide (accessKey = "") || bool_decide (accessKey = "")
       then Anonymous else V4 |}.

Definition retrieve (this : t) (w : World) : t * Promise t ICredentials :=
  let cred := read (process_env w) in
  ({| retrieved := true |}, Promise_resolve cred).

Definition isExpired (this : t) (w : World) : bool := negb (retrieved this).

#[global] Instance provider : IProvider t :=
  Build_IProvider t retrieve isExpired.

End EnvAWS.

(** ** [class IAMCredentials] and its helpers (iam_aws.ts) *)
Module IAMCredentials.

(** [1000 * 10], ten seconds. *)
Definition DefaultExpiryWindow : Z := 1000 * 10.

Definition defaultIAMRoleEndpoint : string := "http://169.254.169.254".
Definition defaultECSRoleEndpoint : string := "http://169.254.170.2".
Definition defaultIAMSecurityCredsPath : string :=
  "/latest/meta-data/iam/security-credentials".

Record IEc2RoleCredRespBody := {
  Expiration : string;
  AccessKeyID : string;
  SecretAccessKey : string;
  Token : string;
  Code : string;
  Message : string;
  LastUpdated : string;
  Type' : string
}.

Record t := {
  endpoint : string;
  expiry : Expiry.t
}.

(** [constructor(endpoint, expiry = new Expiry())] *)
Definition new (endpoint : string) (expiry : option Expiry.t) (w : World) : t :=
  {| endpoint := endpoint;
     expiry := default (Expiry.new None w) expiry |}.

(** [String(v)] of a possibly undefined string, as a template literal
    interpolates it. *)
Definition interpolate (v : option string) : string :=
  default "undefined" v.

(** [getEndpoint(endpoint = "")]: the result object [{endpoint, isEcsTask}]
    is a pair.  [ecsURI] is read without a default, so it is [undefined]
    ([None]) when the variable is unset. *)
Definition getEndpoint (endpoint : option string) (env : gmap string string)
  : string * bool :=
  let endpoint := default "" endpoint in
  let ecsURI := env !! "AWS_CONTAINER_CREDENTIALS_RELATIVE_URI" in
  let isEcsTask := negb (bool_decide (ecsURI = Some "")) in
  if negb (bool_decide (endpoint = "")) then (endpoint, isEcsTask)
  else if isEcsTask then (defaultECSRoleEndpoint +:+ interpolate ecsURI, isEcsTask)
  else (defaultIAMRoleEndpoint, false).

(** The object literal that the [then] callback of [retrieve] returns; it
    has no [signerType]. *)
Module Callback.
Record value := {
  accessKey : string;
  secretKey : string;
  sessionToken : string
}.
End Callback.

(** What one call of [retrieve] leaves behind: the value handed to the
    caller ([None] is [undefined]) and the promise [roleCreds.then(...)],
    which no variable holds but which still settles. *)
Record Call := {
  returned : option (Promise t ICredentials);
  floating : Promise t Callback.value
}.

Section Platform.

(** Node and ECMAScript built-ins used by the file: [JSON.parse],
    [new Date(s).getTime()], [path.join] and [String.prototype.trim].
    [Date_getTime] answers with an instant; a text that is no date (for
    which JavaScript answers NaN) is outside the model. *)
Variable JSON_parse : string -> Error + IEc2RoleCredRespBody.
Variable Date_getTime : string -> Z.
Variable path_join : list string -> string.
Variable String_trim : string -> string.

(** [promise.then(f)] on outcomes. *)
Definition then_ {A B} (o : Outcome A) (f : A -> Outcome B) : Outcome B :=
  match o with
  | Fulfilled a => f a
  | Rejected e => Rejected e
  end.

(** [httpGet]: the promise settles on the ['error'] or the ['end'] event.
    The source sets no timeout; a request that is never answered leaves
    the promise pending and is outside the model. *)
Definition httpGet (url : string) (w : World) : Outcome string :=
  match http_get w url with
  | inl e => Rejected e
  | inr res =>
      if negb (bool_decide (statusCode res = 200%Z)) then
        Rejected (ErrorObject "Error"
          ("Request Failed." +:+ String (Ascii.ascii_of_nat 10) "" +:+ "Status Code: "
             +:+ pretty (statusCode res)))
      else Fulfilled (String_trim (rawData res))
  end.

Definition httpGetJSON (url : string) (w : World)
  : Outcome IEc2RoleCredRespBody :=
  then_ (httpGet url w) (fun body =>
    match JSON_parse body with
    | inr v => Fulfilled v
    | inl err => Rejected err
    end).

Definition listRoleNames (url : string) (w : World) : Outcome string :=
  then_ (httpGet url w) (fun body =>
    if bool_decide (0 < String.length body) then Fulfilled body
    else Rejected (Reason "No IAM roles attached to this EC2 service")).

Definition getEcsTaskCredentials (endpoint : string) (w : World)
  : Outcome IEc2RoleCredRespBody :=
  httpGetJSON endpoint w.

Definition getCredentials (endpoint : string) (w : World)
  : Outcome IEc2RoleCredRespBody :=
  then_ (listRoleNames (path_join [endpoint; defaultIAMSecurityCredsPath]) w)
    (fun rolename =>
       getEcsTaskCredentials
         (path_join [endpoint; defaultIAMSecurityCredsPath; rolename]) w).

(** The callback [cred => { this.expiry.setExpiration(...); return {...} }]. *)
Definition retrieve_callback (this : t) (cred : IEc2RoleCredRespBody)
  : t * Callback.value :=
  ({| endpoint := endpoint this;
      expiry := Expiry.setExpiration (expiry this)
                  (Date_getTime (Expiration cred)) DefaultExpiryWindow |},
   {| Callback.accessKey := AccessKeyID cred;
      Callback.secretKey := SecretAccessKey cred;
      Callback.sessionToken := Token cred |}).

(** [retrieve()]: the body ends after the statement [roleCreds.then(...)];
    there is no [return]. *)
Definition retrieve (this : t) (w : World) : t * Call :=
  let '(endpoint, isEcsTask) :=
    getEndpoint (Some (endpoint this)) (process_env w) in
  let roleCreds :=
    if isEcsTask then getEcsTaskCredentials endpoint
    else getCredentials endpoint in
  (this,
   {| returned := None;
      floating := fun w' this' =>
        match roleCreds w' with
        | Fulfilled cred =>
            let '(this'', value) := retrieve_callback this' cred in
            Some (this'', Fulfilled value)
        | Rejected e => Some (this', Rejected e)
        end |}).

End Platform.

End IAMCredentials.

(** ** [class ChainCredentials] (chain.ts) *)
Module ChainCredentials.

Section WithProvider.

Context {P : Type} `{!IProvider P}.

(** [providers] is a readonly array of provider objects, taken to be
    distinct objects: each position holds the state of its own provider.
    [curr] refers to one of them; it is kept as an index into [providers],
    so that reading through it sees the live object. *)
Record t := {
  providers : list P;
  curr : option nat
}.

(** [constructor(public readonly providers: IProvider[])]; [curr] starts
    undefined. *)
Definition new (providers : list P) : t :=
  {| providers := providers; curr := None |}.

(** The object at [providers[index]] after one of its methods has run. *)
Definition update (index : nat) (provider : P) (this : t) : t :=
  {| providers := <[index := provider]> (providers this);
     curr := curr this |}.

(** [cred.accessKey === "" && cred.secretKey === ""].  A value of type
    [ICredentials] is an object, so [!cred] is false. *)
Definition isEmpty (cred : ICredentials) : bool :=
  bool_decide (accessKey cred = "") && bool_decide (secretKey cred = "").

(** [_retrieve(index)].  The guard is [index >= this.providers.length].
    The first phase calls [providers[index].retrieve()]; the rest is the
    [then] callback, which re-enters [_retrieve(index + 1)] and is settled
    by the promise that this call returns.
    [fuel] bounds the re-entries; [providers.length - index] is enough
    ([chain_retrieve_fuel]).  [None] stands for the two situations outside
    the source's behaviour: no fuel left, and an index past the end after
    the guard. *)
Fixpoint _retrieve (fuel : nat) (index : nat) (this : t) (w : World)
  : t * Promise t ICredentials :=
  if bool_decide (length (providers this) <= index) then
    (this, Promise_resolve AnonymousCredentials)
  else
    match providers this !! index with
    | None => (this, fun _ _ => None)
    | Some provider =>
        let '(provider, promise) := provider_retrieve provider w in
        (update index provider this,
         fun w' this' =>
           match providers this' !! index with
           | None => None
           | Some provider =>
               match promise w' provider with
               | None => None
               | Some (provider, Rejected e) =>
                   Some (update index provider this', Rejected e)
               | Some (provider, Fulfilled cred) =>
                   let this' := update index provider this' in
                   if isEmpty cred then
                     match fuel with
                     | O => None
                     | S fuel => await (_retrieve fuel (index + 1) this' w') w'
                     end
                   else Some (this', Fulfilled cred)
               end
           end)
    end.

(** [retrieve() { return this._retrieve(); }], with [index = 0]. *)
Definition retrieve (this : t) (w : World) : t * Promise t ICredentials :=
  _retrieve (length (providers this)) 0 this w.

Definition isExpired (this : t) (w : World) : bool :=
  match curr this with
  | None => true
  | Some i =>
      match providers this !! i with
      | Some provider => provider_isExpired provider w
      | None => true
      end
  end.

End WithProvider.

Arguments t P : clear implicits.

#[global] Instance provider {P} `{!IProvider P} : IProvider (t P) :=
  Build_IProvider (t P) retrieve isExpired.

End ChainCredentials.

(** ** [class Credentials] (credentials.ts) *)
Module Credentials.

(** A promise object that several callers can hold: pending with the
    second phase still to run, or settled. *)
Inductive PromiseState (P : Type) :=
  | Pending (promise : Promise P ICredentials)
  | Settled (outcome : Outcome ICredentials).
Arguments Pending {P} promise.
Arguments Settled {P} outcome.

Section WithProvider.

Context {P : Type} `{!IProvider P}.

(** [creds] holds a reference to a promise object, or is undefined. *)
Record t := {
  provider : P;
  forceRefresh : bool;
  creds : option nat
}.

(** The object together with the promise objects created so far; a
    reference is a position in [heap]. *)
Record Store := {
  this : t;
  heap : list (PromiseState P)
}.

(** [constructor(public readonly provider, public forceRefresh = true)] *)
Definition new (provider : P) (forceRefresh : option bool) : Store :=
  {| this := {| provider := provider;
                forceRefresh := default true forceRefresh;
                creds := None |};
     heap := [] |}.

Definition isExpired (st : Store) (w : World) : bool :=
  forceRefresh (this st) || provider_isExpired (provider (this st)) w.

(** [get()]: returns [this.creds], a reference or undefined. *)
Definition get (st : Store) (w : World) : Store * option nat :=
  if isExpired st w then
    let '(provider, promise) := provider_retrieve (provider (this st)) w in
    let ref := length (heap st) in
    ({| this := {| provider := provider;
                   forceRefresh := false;
                   creds := Some ref |};
        heap := heap st ++ [Pending promise] |},
     Some ref)
  else (st, creds (this st)).

Definition expire (st : Store) : Store :=
  {| this := {| provider := provider (this st);
                forceRefresh := true;
                creds := creds (this st) |};
     heap := heap st |}.

(** The event loop settles the promise at [ref]: its second phase runs on
    the provider as it is now. *)
Definition settle (ref : nat) (st : Store) (w : World) : Store :=
  match heap st !! ref with
  | Some (Pending promise) =>
      match promise w (provider (this st)) with
      | Some (provider, outcome) =>
          {| this := {| provider := provider;
                        forceRefresh := forceRefresh (this st);
                        creds := creds (this st) |};
             heap := <[ref := Settled outcome]> (heap st) |}
      | None => st
      end
  | _ => st
  end.

(** What a caller holding [ref] observes once the promise has settled. *)
Definition outcome_of (ref : option nat) (st : Store)
  : option (Outcome ICredentials) :=
  match ref with
  | Some r =>
      match heap st !! r with
      | Some (Settled outcome) => Some outcome
      | _ => None
      end
  | None => None
  end.

Definition isPending (c : PromiseState P) : bool :=
  match c with
  | Pending _ => true
  | Settled _ => false
  end.

(** The number of retrievals in flight: every promise in [heap] was made
    by one call of the provider's [retrieve()]. *)
Definition inFlight (st : Store) : nat :=
  length (List.filter isPending (heap st)).

End WithProvider.

Arguments t P : clear implicits.
Arguments Store P : clear implicits.

End Credentials.

(** ** Providers used to exercise the interface *)

(** A provider that answers from a script: each [retrieve()] settles with
    the next scripted outcome; [isExpired()] returns a fixed flag. *)
Module Stub.

Record t := {
  results : list (Outcome ICredentials);
  expired : bool
}.

Definition retrieve (this : t) (w : World) : t * Promise t ICredentials :=
  match results this with
  | [] => (this, Promise_reject (Reason "script exhausted"))
  | outcome :: rest =>
      ({| results := rest; expired := expired this |},
       fun _ this' => Some (this', outcome))
  end.

Definition isExpired (this : t) (w : World) : bool := expired this.

#[global] Instance provider : IProvider t :=
  Build_IProvider t retrieve isExpired.

End Stub.

(** A wrapper that counts the calls of [retrieve()] on a provider. *)
Module Spy.

Section WithProvider.

Context {P : Type} `{!IProvider P}.

Record t := {
  inner : P;
  calls : nat
}.

Definition new (inner : P) : t :=
  {| inner := inner; calls := 0 |}.

Definition retrieve (this : t) (w : World) : t * Promise t ICredentials :=
  let '(p, promise) := provider_retrieve (inner this) w in
  ({| inner := p; calls := S (calls this) |},
   fun w' this' =>
     match promise w' (inner this') with
     | None => None
     | Some (p', outcome) =>
         Some ({| inner := p'; calls := calls this' |}, outcome)
     end).

Definition isExpired (this : t) (w : World) : bool :=
  provider_isExpired (inner this) w.

End WithProvider.

Arguments t P : clear implicits.

#[global] Instance provider {P} `{!IProvider P} : IProvider (t P) :=
  Build_IProvider (t P) retrieve isExpired.

End Spy.

(** ** The chain as a loop *)

(** The providers from some index on, tried in order, each call awaited
    before the next: the result of the recursion of
    [ChainCredentials._retrieve], written as a loop over the sequence. *)
Fixpoint tryInOrder {P} `{!IProvider P} (ps : list P) (w : World)
  : option (list P * Outcome ICredentials) :=
  match ps with
  | [] => Some ([], Fulfilled AnonymousCredentials)
  | p :: rest =>
      match await (provider_retrieve p w) w with
      | None => None
      | Some (p', Rejected e) => Some (p' :: rest, Rejected e)
      | Some (p', Fulfilled cred) =>
          if ChainCredentials.isEmpty cred then
            match tryInOrder rest w with
            | None => None
            | Some (rest', outcome) => Some (p' :: rest', outcome)
            end
          else Some (p' :: rest, Fulfilled cred)
      end
  end.

(** Whether the [then] callback of [_retrieve] goes on to the next
    provider after this outcome. *)
Definition advances (outcome : Outcome ICredentials) : bool :=
  match outcome with
  | Fulfilled cred => ChainCredentials.isEmpty cred
  | Rejected _ => false
  end.

(** The same chain with a call counter, at zero, around each provider. *)
Definition spyOn {P} (this : ChainCredentials.t P) : ChainCredentials.t (Spy.t P) :=
  {| ChainCredentials.providers := Spy.new <$> ChainCredentials.providers this;
     ChainCredentials.curr := ChainCredentials.curr this |}.

(** [retrieve()] on the chain settles with [outcome] after going as far
    as index [i] and no further: the providers after [i] are left as they
    were, and on the spied chain every provider up to [i] has been called
    once and every provider after [i] has not been called. *)
Definition stopsAt {P} `{!IProvider P} (this : ChainCredentials.t P) (w : World)
    (i : nat) (outcome : Outcome ICredentials) : Prop :=
  (∃ this',
     await (ChainCredentials.retrieve this w) w = Some (this', outcome) ∧
     ∀ j, i < j →
       ChainCredentials.providers this' !! j = ChainCredentials.providers this !! j) ∧
  (∃ spied',
     await (ChainCredentials.retrieve (spyOn this) w) w = Some (spied', outcome) ∧
     ∀ j s, ChainCredentials.providers spied' !! j = Some s →
       Spy.calls s = if bool_decide (j ≤ i) then 1 else 0).

(** ** Concrete inputs *)

(** A world with the given environment and clock, and no reachable
    metadata service. *)
Definition world (env : gmap string string) (now : Z) : World :=
  {| process_env := env;
     Date_now := now;
     http_get := fun _ => inl (ErrorObject "Error" "connect ECONNREFUSED") |}.

Definition someKeys : ICredentials :=
  {| accessKey := "AKIA1"; secretKey := "secret1"; sessionToken := None;
     signerType := V4 |}.

Definition transportError : Error := ErrorObject "Error" "socket hang up".

(** An environment variable that is unset or set to the empty string. *)
Definition unsetOrEmpty (env : gmap string string) (name : string) : Prop :=
  env !! name = None ∨ env !! name = Some "".

(** The credential document of the metadata service used in the examples,
    and built-ins that answer for it. *)
Definition roleDocument : IAMCredentials.IEc2RoleCredRespBody :=
  {| IAMCredentials.Expiration := "2030-01-01T00:00:00Z";
     IAMCredentials.AccessKeyID := "X";
     IAMCredentials.SecretAccessKey := "Y";
     IAMCredentials.Token := "Z";
     IAMCredentials.Code := "";
     IAMCredentials.Message := "";
     IAMCredentials.LastUpdated := "";
     IAMCredentials.Type' := "" |}.

Definition parseRoleDocument (body : string)
  : Error + IAMCredentials.IEc2RoleCredRespBody :=
  if bool_decide (body = "{document}") then inr roleDocument
  else inl (ErrorObject "SyntaxError" "Unexpected token").

(** 2030-01-01T00:00:00Z in epoch milliseconds. *)
Definition instantOf (s : string) : Z := 1893456000000.

Definition joinPaths (parts : list string) : string :=
  foldr String.append "" parts.

(** A task-metadata endpoint that serves [roleDocument]. *)
Definition taskWorld : World :=
  {| process_env := {[ "AWS_CONTAINER_CREDENTIALS_RELATIVE_URI" := "/v2/credentials" ]};
     Date_now := 1000;
     http_get := fun url =>
       if bool_decide (url = "http://169.254.170.2/v2/credentials")
       then inr {| statusCode := 200; rawData := "{document}" |}
       else inl (ErrorObject "Error" "connect ECONNREFUSED") |}.

Definition stub (outcome : Outcome ICredentials) (expired : bool) : Stub.t :=
  {| Stub.results := [outcome]; Stub.expired := expired |}.

(** [P1] yields empty keys, [P2] fails, [P3] would yield keys. *)
Definition failingChain : ChainCredentials.t Stub.t :=
  ChainCredentials.new
    [ stub (Fulfilled AnonymousCredentials) true;
      stub (Rejected transportError) true;
      stub (Fulfilled someKeys) false ].

Definition staticChain : ChainCredentials.t StaticCred.t :=
  ChainCredentials.new [StaticCred.new "AKIA1" "secret1" None None].

Definition blankChain : ChainCredentials.t EnvMinio.t :=
  ChainCredentials.new [EnvMinio.new; EnvMinio.new].

(** A provider that is not expired, whose first retrieval yields keys and
    whose second retrieval fails. *)
Definition scripted : Stub.t :=
  {| Stub.results := [Fulfilled someKeys; Rejected transportError];
     Stub.expired := false |}.

(** The cache over [scripted] after a first [get()] has settled with
    [someKeys] and [expire()] has been called. *)
Definition cachedStore : Credentials.Store Stub.t :=
  Credentials.expire
    (Credentials.settle 0
       (fst (Credentials.get (Credentials.new scripted None) (world ∅ 0)))
       (world ∅ 0)).

(** [P1] yields empty keys, [P2] yields keys, [P3] is not reached. *)
Definition fallbackChain : ChainCredentials.t Stub.t :=
  ChainCredentials.new
    [ stub (Fulfilled AnonymousCredentials) true;
      stub (Fulfilled someKeys) false;
      stub (Rejected transportError) true ].

(** A provider that stays expired, whose first retrieval yields keys and
    whose second retrieval fails. *)
Definition staleScripted : Stub.t :=
  {| Stub.results := [Fulfilled someKeys; Rejected transportError];
     Stub.expired := true |}.

(** ** Sequences of calls on a cache *)

(** What can happen to a cache: a caller calls [get()] or [expire()], or
    the event loop settles one of the promises. *)
Inductive CacheOp :=
  | OpGet (w : World)
  | OpExpire
  | OpSettle (ref : nat) (w : World).

Definition cacheStep {P} `{!IProvider P} (st : Credentials.Store P) (op : CacheOp)
  : Credentials.Store P :=
  match op with
  | OpGet w => fst (Credentials.get st w)
  | OpExpire => Credentials.expire st
  | OpSettle ref w => Credentials.settle ref st w
  end.

Definition cacheRun {P} `{!IProvider P} (ops : list CacheOp)
    (st : Credentials.Store P) : Credentials.Store P :=
  foldl cacheStep st ops.

(** [get()] called once in each of the worlds [ws], with what each call
    returned. *)
Fixpoint gets {P} `{!IProvider P} (ws : list World) (st : Credentials.Store P)
  : Credentials.Store P * list (option nat) :=
  match ws with
  | [] => (st, [])
  | w :: ws =>
      let '(st1, ref) := Credentials.get st w in
      let '(st2, refs) := gets ws st1 in
      (st2, ref :: refs)
  end.

(** The reference to the promise made last, if any. *)
Definition lastRef {A} (heap : list A) : option nat :=
  match length heap with
  | O => None
  | S n => Some n
  end.

(** A chain over one static provider with empty keys, a session token
    and the default signature kind. *)
Definition emptyStaticChain : ChainCredentials.t StaticCred.t :=
  ChainCredentials.new [StaticCred.new "" "" (Some "token") None].

(** A second phase that leaves [curr] of the chain as it finds it. *)
Definition keepsCurr {P} (promise : Promise (ChainCredentials.t P) ICredentials) : Prop :=
  ∀ w this this' o,
    promise w this = Some (this', o) →
    ChainCredentials.curr this' = ChainCredentials.curr this.

(** A world in which the instance-metadata service lists the role [role]
    and serves [roleDocument] for it, and in which the variable of the
    task-metadata service is set to the empty string. *)
Definition instanceWorld : World :=
  {| process_env := {[ "AWS_CONTAINER_CREDENTIALS_RELATIVE_URI" := "" ]};
     Date_now := 1000;
     http_get := fun url =>
       if bool_decide
            (url = "http://169.254.169.254/latest/meta-data/iam/security-credentials")
       then inr {| statusCode := 200; rawData := "role" |}
       else if bool_decide
            (url = "http://169.254.169.254/latest/meta-data/iam/security-credentialsrole")
       then inr {| statusCode := 200; rawData := "{document}" |}
       else inl (ErrorObject "Error" "connect ECONNREFUSED") |}.

(** ** Strings of [helpers.ts]

    A JavaScript string is a sequence of 16-bit code units.  The functions
    of [helpers.ts] are embedded on strings whose code units are below 256
    (Latin-1), which Rocq's [string] holds one per character. *)
Module JS.

(** The code units of a string, and the string of a list of them. *)
Definition chars : string → list ascii := String.list_ascii_of_string.
Definition str : list ascii → string := String.string_of_list_ascii.

(** [s.split("")]: the one-character strings of [s]. *)
Definition split (s : string) : list string :=
  (λ c, String c "") <$> chars s.

(** [a <= b] on strings: the order by code units. *)
Definition le (a b : string) : bool := String.leb a b.

(** [s.substr(start)] with a negative [start = -n]: the last [n]
    characters, or all of [s] when it is shorter. *)
Definition substrFromEnd (n : nat) (s : string) : string :=
  str (drop (String.length s - n) (chars s)).

(** [s.substr(start, length)] with [start >= 0]. *)
Definition substr (start len : nat) (s : string) : string :=
  String.substring start len s.

(** [s.indexOf(t)]: the position of the first occurrence, or -1. *)
Definition indexOf (t s : string) : Z :=
  match String.index 0 t s with
  | Some i => Z.of_nat i
  | None => -1
  end.

(** [s.startsWith(t)]. *)
Definition startsWith (t s : string) : bool := String.prefix t s.

(** [s.slice(start, s.length)] with [start >= 0]. *)
Definition sliceFrom (start : nat) (s : string) : string :=
  str (drop start (chars s)).

(** [toLowerCase] of a code unit below 256: the letters A-Z and the
    letters of U+00C0..U+00DE other than the sign U+00D7 move up by 32. *)
Definition lowerChar (c : ascii) : ascii :=
  let n := N_of_ascii c in
  if ((65 <=? n) && (n <=? 90) || (192 <=? n) && (n <=? 222) && negb (n =? 215))%N
  then ascii_of_N (n + 32) else c.

Definition toLowerCase (s : string) : string := str (lowerChar <$> chars s).

(** [new Buffer(s)]: the UTF-8 bytes of [s]; a code unit below 128 is one
    byte, one from 128 to 255 is two. *)
Definition utf8 (c : ascii) : list N :=
  let n := N_of_ascii c in
  if (n <? 128)%N then [n] else [(192 + n / 64)%N; (128 + n mod 64)%N].

Definition Buffer (s : string) : list N := chars s ≫= utf8.

(** One hexadecimal digit in upper case. *)
Definition hexDigit (d : N) : ascii :=
  if (d <? 10)%N then ascii_of_N (48 + d) else ascii_of_N (55 + d).

(** [b.toString(16).toUpperCase()] for a byte [b]: one digit below 16,
    two digits from 16 on; there is no padding. *)
Definition toString16Upper (b : N) : string :=
  if (b <? 16)%N then String (hexDigit b) ""
  else String (hexDigit (b / 16)) (String (hexDigit (b mod 16)) "").

(** [a.indexOf(x)] on an array: the first position of [x], or -1. *)
Fixpoint arrayIndexOfFrom (i : Z) (x : string) (a : list string) : Z :=
  match a with
  | [] => -1
  | y :: a => if bool_decide (y = x) then i else arrayIndexOfFrom (i + 1) x a
  end.

Definition arrayIndexOf (x : string) (a : list string) : Z :=
  arrayIndexOfFrom 0 x a.

(** A plain object is the finite map of its own properties, which are
    enumerable data properties with string keys other than [__proto__]. *)

(** [o[key]]: the object's own property, or else what it inherits. *)
Definition getProp {V} (inherited : string → V) (o : gmap string V) (key : string) : V :=
  default (inherited key) (o !! key).

(** [o[key] = v]: the property becomes the object's own; [__proto__] is
    the one key that no assignment turns into a property. *)
Definition setProp {V} (key : string) (v : V) (o : gmap string V) : gmap string V :=
  if bool_decide (key = "__proto__") then o else <[key := v]> o.

(** [delete o[key]]. *)
Definition deleteProp {V} (key : string) (o : gmap string V) : gmap string V :=
  delete key o.

(** [for (var key in o)] visits every key of [o] once, in an order that the
    engine fixes; [keys] is such an order. *)
Definition enumerates {V} (keys : list string) (o : gmap string V) : Prop :=
  NoDup keys ∧ ∀ key, key ∈ keys ↔ is_Some (o !! key).

(** A valid [Date], by the one method that the code calls. *)
Record Date := { toISOString : string }.

End JS.

(** ** Regular expressions

    The regular expressions of [helpers.ts] use character classes,
    concatenation, [+] and bounded repetition.  They are written as terms
    and run by a matcher that takes derivatives. *)
Module Regex.

Inductive t :=
  | Void
  | Eps
  | Class (p : ascii → bool)
  | Cat (r1 r2 : t)
  | Alt (r1 r2 : t)
  | Star (r : t).

(** [r+], [r{n}], [r?] and [r{lo,hi}]. *)
Definition Plus (r : t) : t := Cat r (Star r).

Fixpoint Rep (n : nat) (r : t) : t :=
  match n with
  | O => Eps
  | S n => Cat r (Rep n r)
  end.

Definition Opt (r : t) : t := Alt r Eps.

Definition Range (lo hi : nat) (r : t) : t :=
  Cat (Rep lo r) (Rep (hi - lo) (Opt r)).

(** One given character, and [\d], [[0-9]]. *)
Definition lit (c : ascii) : t := Class (Ascii.eqb c).

Definition isDigit (c : ascii) : bool :=
  (Ascii.leb "0" c && Ascii.leb c "9")%char.

Definition digit : t := Class isDigit.

Fixpoint nullable (r : t) : bool :=
  match r with
  | Void => false
  | Eps => true
  | Class _ => false
  | Cat r1 r2 => nullable r1 && nullable r2
  | Alt r1 r2 => nullable r1 || nullable r2
  | Star _ => true
  end.

Fixpoint deriv (c : ascii) (r : t) : t :=
  match r with
  | Void => Void
  | Eps => Void
  | Class p => if p c then Eps else Void
  | Cat r1 r2 =>
      if nullable r1 then Alt (Cat (deriv c r1) r2) (deriv c r2)
      else Cat (deriv c r1) r2
  | Alt r1 r2 => Alt (deriv c r1) (deriv c r2)
  | Star r => Cat (deriv c r) (Star r)
  end.

(** The whole of [s] matches [r]. *)
Definition matches (r : t) (s : list ascii) : bool :=
  nullable (foldl (λ r c, deriv c r) r s).

(** [/^r$/.test(s)]: the whole string matches. *)
Definition testWhole (r : t) (s : string) : bool :=
  matches r (JS.chars s).

(** [/r/.test(s)], and [s.match(/r/)] being a match: some part of the
    string matches. *)
Definition testAnywhere (r : t) (s : string) : bool :=
  matches (Cat (Star (Class (λ _, true))) (Cat r (Star (Class (λ _, true)))))
    (JS.chars s).

(** The strings of a regular expression. *)
Inductive Matches : t → list ascii → Prop :=
  | MEps : Matches Eps []
  | MClass p c : p c = true → Matches (Class p) [c]
  | MCat r1 r2 s1 s2 :
      Matches r1 s1 → Matches r2 s2 → Matches (Cat r1 r2) (s1 ++ s2)
  | MAltL r1 r2 s : Matches r1 s → Matches (Alt r1 r2) s
  | MAltR r1 r2 s : Matches r2 s → Matches (Alt r1 r2) s
  | MStarNil r : Matches (Star r) []
  | MStarApp r s1 s2 :
      Matches r s1 → Matches (Star r) s2 → Matches (Star r) (s1 ++ s2).

End Regex.

(** ** [helpers.ts] *)
Module Helpers.

(** The test of [uriEscape] on one element of [string.split("")]. *)
Definition isUnreserved (elem : string) : bool :=
  (JS.le "A" elem && JS.le elem "Z")
  || (JS.le "a" elem && JS.le elem "z")
  || (JS.le "0" elem && JS.le elem "9")
  || bool_decide (elem = "_")
  || bool_decide (elem = ".")
  || bool_decide (elem = "~")
  || bool_decide (elem = "-").

(** The callback of [reduce] in [uriEscape]. *)
Definition uriEscape_step (acc elem : string) : string :=
  let buf := JS.Buffer elem in
  if bool_decide (length buf = 1) && isUnreserved elem then acc +:+ elem
  else foldl (λ acc b, acc +:+ "%" +:+ JS.toString16Upper b) acc buf.

Definition uriEscape (s : string) : string :=
  foldl uriEscape_step "" (JS.split s).

(** [s.replace(/%2F/g, "/")]: every occurrence of the three characters,
    from left to right. *)
Fixpoint replace_2F (s : list ascii) : list ascii :=
  match s with
  | "%"%char :: "2"%char :: "F"%char :: rest => "/"%char :: replace_2F rest
  | c :: rest => c :: replace_2F rest
  | [] => []
  end.

Definition uriResourceEscape (s : string) : string :=
  JS.str (replace_2F (JS.chars (uriEscape s))).

(** [/^(\d{1,3}\.){3,3}\d{1,3}$/] *)
Definition ipv4Regex : Regex.t :=
  Regex.Cat
    (Regex.Rep 3 (Regex.Cat (Regex.Range 1 3 Regex.digit) (Regex.lit ".")))
    (Regex.Range 1 3 Regex.digit).

Definition isValidIP (ip : string) : bool := Regex.testWhole ipv4Regex ip.

(** The characters that [isValidDomain] refuses: the text
    [`~!@#$%^&*()+={}[]|] followed by a backslash, a double quote and
    [';:><?/], split into characters. *)
Definition alphaNumerics : list string :=
  JS.split ("`~!@#$%^&*()+={}[]|"
            +:+ String (ascii_of_nat 92) (String (ascii_of_nat 34) "';:><?/")).

(** [host[0]], a character or undefined. *)
Definition first (host : string) : option ascii := String.get 0 host.

Definition isValidDomain (host : string) : bool :=
  if bool_decide (String.length host = 0) || bool_decide (255 < String.length host)
  then false
  else if bool_decide (first host = Some "-"%char)
          || bool_decide (JS.substrFromEnd 1 host = "-")
  then false
  else if bool_decide (first host = Some "_"%char)
          || bool_decide (JS.substrFromEnd 1 host = "_")
  then false
  else if bool_decide (first host = Some "."%char)
          || bool_decide (JS.substrFromEnd 1 host = ".")
  then false
  else if existsb (λ c, bool_decide (JS.indexOf c host > -1)%Z) alphaNumerics
  then false
  else true.

Definition isValidEndpoint (endpoint : string) : bool :=
  if negb (isValidDomain endpoint) && negb (isValidIP endpoint) then false
  else true.

(** [/[0-9]+\.[0-9]+\.[0-9]+\.[0-9]+/] *)
Definition ipStyleRegex : Regex.t :=
  Regex.Cat (Regex.Plus Regex.digit)
    (Regex.Cat (Regex.lit ".")
       (Regex.Cat (Regex.Plus Regex.digit)
          (Regex.Cat (Regex.lit ".")
             (Regex.Cat (Regex.Plus Regex.digit)
                (Regex.Cat (Regex.lit ".") (Regex.Plus Regex.digit)))))).

(** [[a-z0-9]] and [[a-z0-9.-]] *)
Definition isLowerAlnum (c : ascii) : bool :=
  (Ascii.leb "a" c && Ascii.leb c "z" || Ascii.leb "0" c && Ascii.leb c "9")%char.

Definition isBucketChar (c : ascii) : bool :=
  (Ascii.leb "a" c && Ascii.leb c "z" || Ascii.leb "0" c && Ascii.leb c "9"
   || Ascii.eqb c "." || Ascii.eqb c "-")%char.

(** [/^[a-z0-9][a-z0-9.-]+[a-z0-9]$/] *)
Definition bucketRegex : Regex.t :=
  Regex.Cat (Regex.Class isLowerAlnum)
    (Regex.Cat (Regex.Plus (Regex.Class isBucketChar)) (Regex.Class isLowerAlnum)).

Definition isValidBucketName (bucket : string) : bool :=
  if bool_decide (String.length bucket < 3) || bool_decide (63 < String.length bucket)
  then false
  else if bool_decide (JS.indexOf ".." bucket > -1)%Z then false
  else if Regex.testAnywhere ipStyleRegex bucket then false
  else if Regex.testWhole bucketRegex bucket then true
  else false.

Definition isValidPrefix (prefix : string) : bool :=
  if bool_decide (1024 < String.length prefix) then false else true.

Definition isValidObjectName (objectName : string) : bool :=
  if negb (isValidPrefix objectName) then false
  else if bool_decide (String.length objectName = 0) then false
  else true.

(** [date = date || new Date()]: a missing argument is the present time. *)
Definition makeDateLong (now : JS.Date) (date : option JS.Date) : string :=
  let date := default now date in
  let datestr := JS.toISOString date in
  JS.substr 0 4 datestr
  +:+ JS.substr 5 2 datestr
  +:+ JS.substr 8 5 datestr
  +:+ JS.substr 14 2 datestr
  +:+ JS.substr 17 2 datestr
  +:+ "Z".

Definition makeDateShort (now : JS.Date) (date : option JS.Date) : string :=
  let date := default now date in
  let datestr := JS.toISOString date in
  JS.substr 0 4 datestr +:+ JS.substr 5 2 datestr +:+ JS.substr 8 2 datestr.

Definition getScope (now : JS.Date) (region : string) (date : option JS.Date) : string :=
  makeDateShort now date +:+ "/" +:+ region +:+ "/s3/aws4_request".

Definition isAmzHeader (key : string) : bool :=
  let temp := JS.toLowerCase key in
  JS.startsWith "x-amz-meta-" temp
  || bool_decide (temp = "x-amz-acl")
  || JS.startsWith "x-amz-server-side-encryption-" temp
  || bool_decide (temp = "x-amz-server-side-encryption").

Definition supported_headers : list string :=
  [ "content-type";
    "cache-control";
    "content-encoding";
    "content-disposition";
    "content-language";
    "x-amz-website-redirect-location" ].

Definition isSupportedHeader (key : string) : bool :=
  bool_decide (JS.arrayIndexOf (JS.toLowerCase key) supported_headers > -1)%Z.

Definition isStorageclassHeader (key : string) : bool :=
  bool_decide (JS.toLowerCase key = "x-amz-storage-class").

Section Metadata.

Context {V : Type}.

(** What an object gives for a property that it does not own. *)
Variable inherited : string → V.

(** The body of the loop of [prependXAMZMeta]. *)
Definition prependXAMZMeta_step (newMetadata : gmap string V) (key : string) : gmap string V :=
  if negb (isAmzHeader key)
     && negb (isSupportedHeader key)
     && negb (isStorageclassHeader key)
  then
    let newMetadata :=
      JS.setProp ("X-Amz-Meta-" +:+ key) (JS.getProp inherited newMetadata key)
        newMetadata in
    JS.deleteProp key newMetadata
  else newMetadata.

(** [keys] is the order in which the loop visits the keys of [metaData]. *)
Definition prependXAMZMeta (keys : list string) (metaData : gmap string V) : gmap string V :=
  let newMetadata := metaData in
  foldl prependXAMZMeta_step newMetadata keys.

(** The body of the loop of [extractMetadata]. *)
Definition extractMetadata_step (metaData newMetadata : gmap string V) (key : string) : gmap string V :=
  if isSupportedHeader key || isStorageclassHeader key || isAmzHeader key then
    if JS.startsWith "x-amz-meta-" (JS.toLowerCase key)
    then JS.setProp (JS.sliceFrom 11 key) (JS.getProp inherited metaData key) newMetadata
    else JS.setProp key (JS.getProp inherited metaData key) newMetadata
  else newMetadata.

Definition extractMetadata (keys : list string) (metaData : gmap string V) : gmap string V :=
  foldl (extractMetadata_step metaData) ∅ keys.

End Metadata.

End Helpers.

(** The key is one of those that [prependXAMZMeta] leaves as they are and
    that [extractMetadata] keeps. *)
Definition isHeader (key : string) : bool :=
  Helpers.isAmzHeader key || Helpers.isSupportedHeader key
  || Helpers.isStorageclassHeader key.

(** The keys of [prependXAMZMeta]'s result, by the keys of its argument. *)
Definition prefixed (key : string) : string :=
  if isHeader key then key else "X-Amz-Meta-" +:+ key.

(** One to three decimal digits. *)
Definition digitGroup (g : list ascii) : Prop :=
  (1 ≤ length g ≤ 3) ∧ Forall (λ c, Regex.isDigit c = true) g.

(** The character is one of those that [isValidDomain] refuses. *)
Definition refused (c : ascii) : bool :=
  bool_decide (String c "" ∈ Helpers.alphaNumerics).

(** ** Metadata and dates used as inputs *)

(** Objects whose values are texts; a property that is not the object's own
    reads as [undefined], here [None]. *)
Definition nothingInherited : string → option string := λ _, None.

Definition userMetadata : gmap string (option string) :=
  <["color" := Some "blue"]> (<["Content-Type" := Some "text/plain"]> ∅).

Definition plainMetadata : gmap string (option string) :=
  <["color" := Some "blue"]> (<["size" := Some "large"]> ∅).

Definition someDate : JS.Date := {| JS.toISOString := "2017-08-07T16:28:59.889Z" |}.

(** * Properties *)

(** ** Expiry *)

Lemma Expiry_isExpired_after_set (e : Expiry.t) (T window : Z) (w : World) :
  (window > 0)%Z →
  Expiry.isExpired (Expiry.setExpiration e T window) w
  = bool_decide (Date_now w > T - window)%Z.
Proof.
  intros Hw. unfold Expiry.isExpired, Expiry.setExpiration. simpl.
  destruct (decide (window > 0)%Z) as [_|Hn]; [reflexivity | contradiction].
Qed.

(** C6, as stated, fails at the boundary: with T = 20000 and the window
    10000, the instant now = 10000 = T - 10000 is not reported expired. *)
Lemma Expiry_boundary_instant_not_expired :
  (10000 >= 20000 - 10000)%Z ∧
  Expiry.isExpired
    (Expiry.setExpiration (Expiry.new None (world ∅ 0)) 20000 10000)
    (world ∅ 10000) = false.
Proof. split; [lia | reflexivity]. Qed.

(** C6, amended: after [setExpiration(T, 10000)] the tracker reports
    expired exactly when now > T - 10000; at now = T - 10000 and before,
    it reports not expired. *)
Theorem Expiry_window_10000 (e : Expiry.t) (T : Z) (w : World) :
  ((Date_now w > T - 10000)%Z →
     Expiry.isExpired (Expiry.setExpiration e T 10000) w = true) ∧
  ((Date_now w <= T - 10000)%Z →
     Expiry.isExpired (Expiry.setExpiration e T 10000) w = false).
Proof.
  rewrite Expiry_isExpired_after_set by lia.
  split; intros Hnow.
  - apply bool_decide_eq_true_2. exact Hnow.
  - apply bool_decide_eq_false_2. lia.
Qed.

(** ** Environment providers *)

Lemma default_empty_iff (env : gmap string string) (name : string) :
  default "" (env !! name) = "" ↔ unsetOrEmpty env name.
Proof.
  unfold unsetOrEmpty. destruct (env !! name) as [v|]; simpl.
  - split; [intros ->; by right | intros [?| [= ->]]; done].
  - split; [by left | done].
Qed.

(** C10: the minio provider's [retrieve()] yields [Anonymous] whenever
    MINIO_ACCESS_KEY or MINIO_SECRET_KEY is unset or empty (and [V4]
    otherwise).  The AWS provider's [retrieve()] resolves the access key
    to AWS_ACCESS_KEY_ID, or to AWS_ACCESS_KEY when that variable is unset
    or empty, and its signature kind is [Anonymous] exactly when the
    resolved access key is empty, that is when both variables are unset or
    empty: two environments that agree on the two access-key variables get
    the same kind whatever their secret keys are. *)
Theorem env_providers_signature_kind (w : World) (m : EnvMinio.t) (a : EnvAWS.t) :
  (∃ m' cred,
     await (EnvMinio.retrieve m w) w = Some (m', Fulfilled cred) ∧
     (signerType cred = Anonymous ↔
        unsetOrEmpty (process_env w) "MINIO_ACCESS_KEY" ∨
        unsetOrEmpty (process_env w) "MINIO_SECRET_KEY") ∧
     (signerType cred = Anonymous ∨ signerType cred = V4)) ∧
  (∃ a' cred,
     await (EnvAWS.retrieve a w) w = Some (a', Fulfilled cred) ∧
     (∀ v, process_env w !! "AWS_ACCESS_KEY_ID" = Some v → v ≠ "" →
           accessKey cred = v) ∧
     (unsetOrEmpty (process_env w) "AWS_ACCESS_KEY_ID" →
      accessKey cred = default "" (process_env w !! "AWS_ACCESS_KEY")) ∧
     (signerType cred = Anonymous ↔
        unsetOrEmpty (process_env w) "AWS_ACCESS_KEY_ID" ∧
        unsetOrEmpty (process_env w) "AWS_ACCESS_KEY") ∧
     (signerType cred = Anonymous ↔ accessKey cred = "") ∧
     (signerType cred = Anonymous ∨ signerType cred = V4) ∧
     ∀ (w2 : World) (a2 : EnvAWS.t),
       process_env w2 !! "AWS_ACCESS_KEY_ID" = process_env w !! "AWS_ACCESS_KEY_ID" →
       process_env w2 !! "AWS_ACCESS_KEY" = process_env w !! "AWS_ACCESS_KEY" →
       ∃ a2' cred2,
         await (EnvAWS.retrieve a2 w2) w2 = Some (a2', Fulfilled cred2) ∧
         signerType cred2 = signerType cred).
Proof.
  split.
  - eexists _, _. split; [reflexivity|].
    rewrite <- !default_empty_iff. unfold EnvMinio.read. simpl.
    do 2 case_bool_decide; simpl; split; try tauto; split; intros; try done;
      tauto.
  - eexists _, _. split; [reflexivity|]. unfold EnvAWS.read. simpl.
    rewrite <- !default_empty_iff.
    split; [|split; [|split; [|split; [|split]]]].
    + intros v Hv Hne. rewrite Hv. simpl. by rewrite bool_decide_eq_false_2.
    + intros Hid. by rewrite bool_decide_eq_true_2.
    + repeat case_bool_decide; simpl; split; intros; try done; try tauto;
        try congruence.
    + repeat case_bool_decide; simpl; split; intros; congruence.
    + repeat case_bool_decide; simpl; tauto.
    + intros w2 a2 H1 H2. eexists _, _. split; [reflexivity|].
      simpl. rewrite H1, H2. reflexivity.
Qed.

Example EnvAWS_primary_variables :
  EnvAWS.read {[ "AWS_ACCESS_KEY_ID" := "AKIA1"; "AWS_SECRET_ACCESS_KEY" := "secret1" ]}
  = someKeys.
Proof. reflexivity. Qed.

Example EnvAWS_secret_only :
  signerType (EnvAWS.read {[ "AWS_SECRET_ACCESS_KEY" := "secret1" ]}) = Anonymous ∧
  signerType (EnvAWS.read {[ "AWS_ACCESS_KEY" := "AKIA1" ]}) = V4 ∧
  signerType (EnvMinio.read {[ "MINIO_ACCESS_KEY" := "AKIA1" ]}) = Anonymous ∧
  signerType (EnvMinio.read {[ "MINIO_ACCESS_KEY" := "AKIA1"; "MINIO_SECRET_KEY" := "" ]})
    = Anonymous ∧
  signerType (EnvMinio.read {[ "MINIO_ACCESS_KEY" := "AKIA1"; "MINIO_SECRET_KEY" := "s" ]})
    = V4.
Proof. repeat split. Qed.

(** ** Metadata-service provider *)

(** C4 fails on the code when the variable is unset: [ecsURI] is then
    [undefined], which differs from the empty string, so the result is
    ECS-task mode with the text "undefined" appended to the task-metadata
    base, not the instance-metadata default. *)
Theorem getEndpoint_unset_variable (env : gmap string string) :
  env !! "AWS_CONTAINER_CREDENTIALS_RELATIVE_URI" = None →
  IAMCredentials.getEndpoint None env = ("http://169.254.170.2undefined", true) ∧
  IAMCredentials.getEndpoint (Some "") env = ("http://169.254.170.2undefined", true).
Proof.
  intros Hunset. unfold IAMCredentials.getEndpoint. rewrite Hunset.
  split; reflexivity.
Qed.

Lemma getEndpoint_unset_variable_witness :
  (∅ : gmap string string) !! "AWS_CONTAINER_CREDENTIALS_RELATIVE_URI" = None ∧
  IAMCredentials.getEndpoint None ∅ = ("http://169.254.170.2undefined", true) ∧
  IAMCredentials.getEndpoint (Some "") ∅ = ("http://169.254.170.2undefined", true).
Proof.
  split; [reflexivity|].
  apply (getEndpoint_unset_variable ∅). reflexivity.
Defined.

(** With the variable set, the resolution is as described: empty gives the
    instance-metadata default in EC2 mode, non-empty gives the task base
    followed by the URI in ECS mode. *)
Lemma getEndpoint_set_variable (env : gmap string string) (uri : string) :
  env !! "AWS_CONTAINER_CREDENTIALS_RELATIVE_URI" = Some uri →
  IAMCredentials.getEndpoint None env =
    if bool_decide (uri = "") then ("http://169.254.169.254", false)
    else ("http://169.254.170.2" +:+ uri, true).
Proof.
  intros Hset. unfold IAMCredentials.getEndpoint. rewrite Hset. simpl.
  case_bool_decide as Huri; case_bool_decide as Huri'; simpl; try reflexivity.
  - exfalso. apply Huri'. congruence.
  - exfalso. apply Huri. congruence.
Qed.

(** C2 fails on the code: when the credential document is fetched, the
    [then] callback does update the expiry tracker from [Expiration] (with
    the 10000 ms window) and does build the three keys, but [retrieve()]
    has no [return]: the caller receives [undefined], and the object built
    has no signature kind. *)
Theorem IAM_retrieve_returns_undefined
    (JSON_parse : string → Error + IAMCredentials.IEc2RoleCredRespBody)
    (Date_getTime : string → Z) (path_join : list string → string)
    (String_trim : string → string)
    (this this1 this2 : IAMCredentials.t) (w w' : World)
    (call : IAMCredentials.Call) (value : IAMCredentials.Callback.value) :
  IAMCredentials.retrieve JSON_parse Date_getTime path_join String_trim this w
    = (this1, call) →
  IAMCredentials.floating call w' this1 = Some (this2, Fulfilled value) →
  IAMCredentials.returned call = None ∧
  ∃ doc,
    value = {| IAMCredentials.Callback.accessKey := IAMCredentials.AccessKeyID doc;
               IAMCredentials.Callback.secretKey := IAMCredentials.SecretAccessKey doc;
               IAMCredentials.Callback.sessionToken := IAMCredentials.Token doc |} ∧
    IAMCredentials.expiry this2 =
      Expiry.setExpiration (IAMCredentials.expiry this)
        (Date_getTime (IAMCredentials.Expiration doc)) 10000.
Proof.
  unfold IAMCredentials.retrieve.
  destruct (IAMCredentials.getEndpoint _ _) as [url ecs].
  intros [= <- <-]. simpl.
  destruct ecs.
  - destruct (IAMCredentials.getEcsTaskCredentials _ _ _ _) as [doc|e];
      intros [= <- <-]; split; eauto.
  - destruct (IAMCredentials.getCredentials _ _ _ _ _) as [doc|e];
      intros [= <- <-]; split; eauto.
Qed.

Lemma IAM_retrieve_returns_undefined_witness :
  let this := IAMCredentials.new "" None taskWorld in
  let call :=
    snd (IAMCredentials.retrieve parseRoleDocument instantOf joinPaths id
           this taskWorld) in
  IAMCredentials.returned call = None ∧
  ∃ doc,
    {| IAMCredentials.Callback.accessKey := "X";
       IAMCredentials.Callback.secretKey := "Y";
       IAMCredentials.Callback.sessionToken := "Z" |}
    = {| IAMCredentials.Callback.accessKey := IAMCredentials.AccessKeyID doc;
         IAMCredentials.Callback.secretKey := IAMCredentials.SecretAccessKey doc;
         IAMCredentials.Callback.sessionToken := IAMCredentials.Token doc |} ∧
    {| Expiry.expiration := 1893455990000 |} =
      Expiry.setExpiration (IAMCredentials.expiry this)
        (instantOf (IAMCredentials.Expiration doc)) 10000.
Proof.
  apply (IAM_retrieve_returns_undefined parseRoleDocument instantOf joinPaths id
           (IAMCredentials.new "" None taskWorld)
           (IAMCredentials.new "" None taskWorld)
           {| IAMCredentials.endpoint := "";
              IAMCredentials.expiry := {| Expiry.expiration := 1893455990000 |} |}
           taskWorld taskWorld).
  - reflexivity.
  - vm_compute. reflexivity.
Defined.

(** ** Chain resolver *)

Section Chain.

Context {P : Type} `{!IProvider P}.

(** With [providers.length - index] re-entries allowed, [_retrieve(index)]
    followed by the settling of its promise is the loop over the providers
    from [index] on; the providers before [index] and [curr] are left as
    they were. *)
Lemma chain_retrieve_tryInOrder (fuel index : nat) (ps : list P)
    (c : option nat) (w : World) :
  (length ps - index ≤ fuel)%nat →
  await (ChainCredentials._retrieve fuel index
           {| ChainCredentials.providers := ps; ChainCredentials.curr := c |} w) w
  = (λ r, ({| ChainCredentials.providers := take index ps ++ fst r;
              ChainCredentials.curr := c |}, snd r))
      <$> tryInOrder (drop index ps) w.
Proof.
  revert index ps.
  induction fuel as [|fuel IH]; intros index ps Hfuel.
  - assert (Hle : (length ps <= index)%nat) by lia.
    simpl. rewrite (bool_decide_eq_true_2 _ Hle).
    rewrite drop_ge by lia. simpl. rewrite app_nil_r, take_ge by lia.
    reflexivity.
  - simpl. case_bool_decide as Hlen; simpl in Hlen.
    + rewrite drop_ge by lia. simpl. rewrite app_nil_r, take_ge by lia.
      reflexivity.
    + destruct (lookup_lt_is_Some_2 ps index) as [p Hp]; [lia|].
      rewrite Hp. rewrite (drop_S _ _ _ Hp). simpl.
      unfold provider_retrieve.
      destruct (retrieve p w) as [p1 promise] eqn:Hcall. simpl.
      rewrite list_lookup_insert_eq by lia.
      destruct (promise w p1) as [[p2 [cred|e]]|] eqn:Hsettle; simpl.
      * unfold ChainCredentials.update. simpl. rewrite list_insert_insert_eq.
        destruct (ChainCredentials.isEmpty cred).
        -- replace (index + 1) with (S index) by lia.
           rewrite IH by (rewrite length_insert; lia).
           rewrite drop_insert_lt by lia.
           destruct (tryInOrder (drop (S index) ps) w) as [[rest o]|]; simpl;
             [|reflexivity].
           rewrite (take_S_r _ _ p2) by (apply list_lookup_insert_eq; lia).
           rewrite take_insert_ge by lia.
           by rewrite <- app_assoc.
        -- simpl. by rewrite insert_take_drop by lia.
      * unfold ChainCredentials.update. simpl. rewrite list_insert_insert_eq.
        by rewrite insert_take_drop by lia.
      * reflexivity.
Qed.

Lemma chain_retrieve_run (this : ChainCredentials.t P) (w : World) :
  await (ChainCredentials.retrieve this w) w
  = (λ r, ({| ChainCredentials.providers := fst r;
              ChainCredentials.curr := ChainCredentials.curr this |}, snd r))
      <$> tryInOrder (ChainCredentials.providers this) w.
Proof.
  destruct this as [ps c]. unfold ChainCredentials.retrieve. simpl.
  rewrite chain_retrieve_tryInOrder by lia.
  by rewrite drop_0.
Qed.

(** Any two amounts of fuel of at least [providers.length - index] give the
    same result. *)
Lemma chain_retrieve_fuel (fuel fuel' index : nat) (this : ChainCredentials.t P)
    (w : World) :
  length (ChainCredentials.providers this) - index ≤ fuel →
  length (ChainCredentials.providers this) - index ≤ fuel' →
  await (ChainCredentials._retrieve fuel index this w) w
  = await (ChainCredentials._retrieve fuel' index this w) w.
Proof.
  destruct this as [ps c]. simpl. intros Hfuel Hfuel'.
  by rewrite !chain_retrieve_tryInOrder.
Qed.

Lemma tryInOrder_settles (ps : list P) (w : World) :
  (∀ p, p ∈ ps → is_Some (await (provider_retrieve p w) w)) →
  is_Some (tryInOrder ps w).
Proof.
  induction ps as [|p rest IH]; intros Hall; simpl; [done|].
  destruct (Hall p) as [[p' [cred|e]] ->]; [left| |done].
  destruct (ChainCredentials.isEmpty cred); [|done].
  destruct IH as [[rest' o] ->]; [|done].
  intros q Hq. apply Hall. by right.
Qed.

(** The chain's promise settles when the promise of each provider does. *)
Lemma chain_retrieve_settles (this : ChainCredentials.t P) (w : World) :
  (∀ p, p ∈ ChainCredentials.providers this →
     is_Some (await (provider_retrieve p w) w)) →
  is_Some (await (ChainCredentials.retrieve this w) w).
Proof.
  intros Hall. rewrite chain_retrieve_run.
  destruct (tryInOrder_settles _ w Hall) as [r ->]. done.
Qed.

Lemma isEmpty_spec (cred : ICredentials) :
  ChainCredentials.isEmpty cred = true ↔
  accessKey cred = "" ∧ secretKey cred = "".
Proof.
  unfold ChainCredentials.isEmpty.
  rewrite andb_true_iff, !bool_decide_eq_true. reflexivity.
Qed.

Lemma tryInOrder_all_empty (ps : list P) (w : World) :
  (∀ p, p ∈ ps →
     ∃ p' cred, await (provider_retrieve p w) w = Some (p', Fulfilled cred) ∧
                ChainCredentials.isEmpty cred = true) →
  ∃ ps', tryInOrder ps w = Some (ps', Fulfilled AnonymousCredentials).
Proof.
  induction ps as [|p rest IH]; intros Hall; simpl.
  - eauto.
  - destruct (Hall p) as (p' & cred & -> & ->); [left|].
    destruct IH as [rest' ->]; [|eauto].
    intros q Hq. apply Hall. by right.
Qed.

(** The loop stops at the first provider whose outcome does not advance:
    that outcome is the result, the providers before it have been called
    and awaited, and the providers after it are as they were. *)
Lemma tryInOrder_stops (ps : list P) (w : World) (i : nat) (p p' : P)
    (o : Outcome ICredentials) :
  ps !! i = Some p →
  (∀ j pj, (j < i)%nat → ps !! j = Some pj →
     ∃ pj' cred, await (provider_retrieve pj w) w = Some (pj', Fulfilled cred) ∧
                 ChainCredentials.isEmpty cred = true) →
  await (provider_retrieve p w) w = Some (p', o) →
  advances o = false →
  ∃ ps', tryInOrder ps w = Some (ps', o) ∧
         ps' !! i = Some p' ∧
         (∀ j, (i < j)%nat → ps' !! j = ps !! j) ∧
         (∀ j pj, (j < i)%nat → ps !! j = Some pj →
            ∃ pj' cred,
              await (provider_retrieve pj w) w = Some (pj', Fulfilled cred) ∧
              ps' !! j = Some pj').
Proof.
  revert i. induction ps as [|q rest IH]; intros i Hi Hbefore Hrun Hstop.
  - done.
  - destruct i as [|i]; simpl in *.
    + injection Hi as ->. rewrite Hrun.
      exists (p' :: rest). split; [|split; [done|split]].
      * destruct o as [cred|e]; [|done]. simpl in Hstop. by rewrite Hstop.
      * intros [|j] Hj; [lia|done].
      * intros j pj Hj. lia.
    + destruct (Hbefore 0%nat q) as (q' & cred & Hq & Hcred); [lia|done|].
      rewrite Hq, Hcred.
      destruct (IH i Hi) as (rest' & -> & Hi' & Hafter & Hprev); [|done|done|].
      { intros j pj Hj Hpj. apply (Hbefore (S j)); [lia|done]. }
      exists (q' :: rest'). split; [done|split; [done|split]].
      * intros [|j] Hj; [lia|]. simpl. apply Hafter. lia.
      * intros [|j] pj Hj Hpj; simpl in *.
        -- injection Hpj as <-. eauto.
        -- apply Hprev; [lia|done].
Qed.

End Chain.

Lemma chain_curr_unchanged {P} `{!IProvider P} (this this' : ChainCredentials.t P)
    (w : World) (o : Outcome ICredentials) :
  await (ChainCredentials.retrieve this w) w = Some (this', o) →
  ChainCredentials.curr this' = ChainCredentials.curr this.
Proof.
  rewrite chain_retrieve_run.
  destruct (tryInOrder _ _) as [[ps' o']|]; simpl; [|done].
  by intros [= <- _].
Qed.

Lemma Spy_await {P} `{!IProvider P} (s s' : Spy.t P) (w : World)
    (o : Outcome ICredentials) :
  await (Spy.retrieve s w) w = Some (s', o) →
  Spy.calls s' = S (Spy.calls s).
Proof.
  unfold Spy.retrieve, await.
  destruct (provider_retrieve (Spy.inner s) w) as [p promise]. simpl.
  destruct (promise w p) as [[p' o']|]; [|done].
  by intros [= <- <-].
Qed.

Lemma Spy_new_await {P} `{!IProvider P} (p p' : P) (w : World)
    (o : Outcome ICredentials) :
  await (provider_retrieve p w) w = Some (p', o) →
  await (Spy.retrieve (Spy.new p) w) w
  = Some ({| Spy.inner := p'; Spy.calls := 1 |}, o).
Proof.
  unfold Spy.retrieve, await. simpl.
  destruct (provider_retrieve p w) as [p1 promise]. simpl.
  by intros ->.
Qed.

(** A chain whose providers before [i] settle with empty keys and whose
    provider at [i] settles with an outcome that does not advance stops at
    [i] with that outcome. *)
Lemma chain_stops {P} `{!IProvider P} (this : ChainCredentials.t P)
    (w : World) (i : nat) (p p' : P) (o : Outcome ICredentials) :
  ChainCredentials.providers this !! i = Some p →
  (∀ j pj, j < i → ChainCredentials.providers this !! j = Some pj →
     ∃ pj' cred, await (provider_retrieve pj w) w = Some (pj', Fulfilled cred) ∧
                 accessKey cred = "" ∧ secretKey cred = "") →
  await (provider_retrieve p w) w = Some (p', o) →
  advances o = false →
  stopsAt this w i o.
Proof.
  intros Hi Hbefore Hrun Hstop. split.
  - destruct (tryInOrder_stops (ChainCredentials.providers this) w i p p' o)
      as (ps' & Hloop & _ & Hafter & _); [done| |done|done|].
    { intros j pj Hj Hpj.
      destruct (Hbefore j pj Hj Hpj) as (pj' & cred & ? & ?).
      exists pj', cred. by rewrite isEmpty_spec. }
    rewrite chain_retrieve_run, Hloop. simpl. eauto.
  - assert (Hspied : ∀ j sj, (Spy.new <$> ChainCredentials.providers this) !! j = Some sj →
              ∃ pj, ChainCredentials.providers this !! j = Some pj ∧ sj = Spy.new pj).
    { intros j sj. rewrite list_lookup_fmap.
      destruct (ChainCredentials.providers this !! j) as [pj|]; [|done].
      intros [= <-]. eauto. }
    destruct (tryInOrder_stops (Spy.new <$> ChainCredentials.providers this) w i
                (Spy.new p) {| Spy.inner := p'; Spy.calls := 1 |} o)
      as (ps' & Hloop & Hi' & Hafter & Hprev); [| |by apply Spy_new_await|done|].
    { by rewrite list_lookup_fmap, Hi. }
    { intros j sj Hj Hsj. destruct (Hspied j sj Hsj) as (pj & Hpj & ->).
      destruct (Hbefore j pj Hj Hpj) as (pj' & cred & Hsettle & ?).
      eexists _, cred. split; [by apply Spy_new_await|]. by rewrite isEmpty_spec. }
    rewrite chain_retrieve_run. simpl. rewrite Hloop. simpl.
    eexists. split; [reflexivity|]. simpl.
    intros j s Hs. case_bool_decide as Hj.
    + destruct (decide (j = i)) as [->|Hne].
      * rewrite Hi' in Hs. by injection Hs as <-.
      * destruct (lookup_lt_is_Some_2 (Spy.new <$> ChainCredentials.providers this) j)
          as [sj Hsj].
        { apply lookup_lt_Some in Hi. rewrite length_fmap. lia. }
        destruct (Hprev j sj) as (sj' & cred & Hsettle & Hs'); [lia|done|].
        destruct (Hspied j sj Hsj) as (pj & _ & ->).
        assert (s = sj') as -> by congruence.
        by apply Spy_await in Hsettle.
    + rewrite Hafter in Hs by lia.
      by destruct (Hspied j s Hs) as (pj & _ & ->).
Qed.

(** After a success with both keys empty the loop goes on: the outcome is
    that of the providers after it. *)
Lemma tryInOrder_advances {P} `{!IProvider P} (ps : list P) (w : World) (i : nat)
    (p p' : P) (cred : ICredentials) :
  ps !! i = Some p →
  (∀ j pj, j < i → ps !! j = Some pj →
     ∃ pj' c, await (provider_retrieve pj w) w = Some (pj', Fulfilled c) ∧
              ChainCredentials.isEmpty c = true) →
  await (provider_retrieve p w) w = Some (p', Fulfilled cred) →
  ChainCredentials.isEmpty cred = true →
  snd <$> tryInOrder ps w = snd <$> tryInOrder (drop (S i) ps) w.
Proof.
  revert i. induction ps as [|q rest IH]; intros i Hi Hbefore Hrun Hcred; [done|].
  destruct i as [|i]; simpl in Hi.
  - injection Hi as ->. simpl. rewrite Hrun, Hcred, drop_0.
    by destruct (tryInOrder rest w) as [[rest' o]|].
  - destruct (Hbefore 0 q) as (q' & c & Hq & Hc); [lia|done|].
    simpl. rewrite Hq, Hc. rewrite <- (IH i Hi); [|..|done|done].
    + by destruct (tryInOrder rest w) as [[rest' o]|].
    + intros j pj Hj Hpj. apply (Hbefore (S j)); [lia|done].
Qed.

Lemma chain_advances {P} `{!IProvider P} (this : ChainCredentials.t P)
    (w : World) (i : nat) (p p' : P) (cred : ICredentials) :
  ChainCredentials.providers this !! i = Some p →
  (∀ j pj, j < i → ChainCredentials.providers this !! j = Some pj →
     ∃ pj' c, await (provider_retrieve pj w) w = Some (pj', Fulfilled c) ∧
              accessKey c = "" ∧ secretKey c = "") →
  await (provider_retrieve p w) w = Some (p', Fulfilled cred) →
  accessKey cred = "" ∧ secretKey cred = "" →
  snd <$> await (ChainCredentials.retrieve this w) w
  = snd <$> await (ChainCredentials.retrieve
                     (ChainCredentials.new (drop (S i) (ChainCredentials.providers this)))
                     w) w.
Proof.
  intros Hi Hbefore Hrun Hcred. rewrite !chain_retrieve_run. simpl.
  assert (Hloop : snd <$> tryInOrder (ChainCredentials.providers this) w
                  = snd <$> tryInOrder (drop (S i) (ChainCredentials.providers this)) w).
  { apply (tryInOrder_advances _ w i p p' cred); try done.
    - intros j pj Hj Hpj. destruct (Hbefore j pj Hj Hpj) as (pj' & c & ? & ?).
      exists pj', c. by rewrite isEmpty_spec.
    - by rewrite isEmpty_spec. }
  destruct (tryInOrder (ChainCredentials.providers this) w) as [[ps1 o1]|],
    (tryInOrder (drop (S i) (ChainCredentials.providers this)) w) as [[ps2 o2]|];
    simpl in *; congruence.
Qed.

(** C7 as stated fails: in [fallbackChain] the provider at index 2 is the
    first whose [retrieve()] fails, the two before it succeed, and yet the
    chain's [retrieve()] is not rejected.  It is fulfilled with the keys
    of the provider at index 1, and the failing provider is never called. *)
Theorem chain_failure_behind_keys_is_not_reached :
  let w := world ∅ 0 in
  ChainCredentials.providers fallbackChain
    = [ stub (Fulfilled AnonymousCredentials) true;
        stub (Fulfilled someKeys) false;
        stub (Rejected transportError) true ] ∧
  snd <$> await (provider_retrieve (stub (Fulfilled AnonymousCredentials) true) w) w
    = Some (Fulfilled AnonymousCredentials) ∧
  snd <$> await (provider_retrieve (stub (Fulfilled someKeys) false) w) w
    = Some (Fulfilled someKeys) ∧
  snd <$> await (provider_retrieve (stub (Rejected transportError) true) w) w
    = Some (Rejected transportError) ∧
  snd <$> await (ChainCredentials.retrieve fallbackChain w) w
    = Some (Fulfilled someKeys) ∧
  (λ r, Spy.calls <$> ChainCredentials.providers (fst r))
    <$> await (ChainCredentials.retrieve (spyOn fallbackChain) w) w
    = Some [1; 1; 0].
Proof. repeat split. Qed.

(** C7, amended: the chain ends at the first provider that does not
    succeed with both keys empty.  When the providers before index [i]
    have each succeeded with both keys empty and the provider at [i]
    fails, [retrieve()] is rejected with that provider's error; when it
    succeeds with a key that is not empty, [retrieve()] is fulfilled with
    its credentials.  In both cases every provider up to [i] has been
    called once and no provider after [i] has been called.  When it
    succeeds with both keys empty, and only then, the chain moves on: its
    outcome is that of the chain over the providers after [i]. *)
Theorem chain_ends_at_first_failure_or_keys {P} `{!IProvider P}
    (this : ChainCredentials.t P) (w : World) (i : nat) (p p' : P)
    (o : Outcome ICredentials) :
  ChainCredentials.providers this !! i = Some p →
  (∀ j pj, j < i → ChainCredentials.providers this !! j = Some pj →
     ∃ pj' cred, await (provider_retrieve pj w) w = Some (pj', Fulfilled cred) ∧
                 accessKey cred = "" ∧ secretKey cred = "") →
  await (provider_retrieve p w) w = Some (p', o) →
  match o with
  | Rejected e => stopsAt this w i (Rejected e)
  | Fulfilled cred =>
      (¬ (accessKey cred = "" ∧ secretKey cred = "") →
       stopsAt this w i (Fulfilled cred)) ∧
      (accessKey cred = "" ∧ secretKey cred = "" →
       snd <$> await (ChainCredentials.retrieve this w) w
       = snd <$> await (ChainCredentials.retrieve
                          (ChainCredentials.new
                             (drop (S i) (ChainCredentials.providers this)))
                          w) w)
  end.
Proof.
  intros Hi Hbefore Hrun. destruct o as [cred|e].
  - split.
    + intros Hcred.
      apply (chain_stops this w i p p' (Fulfilled cred)); try done.
      simpl. apply not_true_is_false. by rewrite isEmpty_spec.
    + intros Hcred. by apply (chain_advances this w i p p' cred).
  - by apply (chain_stops this w i p p' (Rejected e)).
Qed.

Lemma chain_ends_at_first_failure_or_keys_witness :
  stopsAt failingChain (world ∅ 0) 1 (Rejected transportError).
Proof.
  apply (chain_ends_at_first_failure_or_keys failingChain (world ∅ 0) 1
           (stub (Rejected transportError) true)
           {| Stub.results := []; Stub.expired := true |}
           (Rejected transportError)).
  - reflexivity.
  - intros [|j] pj Hj Hpj; [|lia].
    injection Hpj as <-. eexists _, _. split; [reflexivity|]. split; reflexivity.
  - reflexivity.
Defined.

Example failingChain_calls :
  (λ r, (Spy.calls <$> ChainCredentials.providers (fst r), snd r))
    <$> await (ChainCredentials.retrieve (spyOn failingChain) (world ∅ 0)) (world ∅ 0)
  = Some ([1; 1; 0], Rejected transportError).
Proof. reflexivity. Qed.

Example fallbackChain_calls :
  (λ r, (Spy.calls <$> ChainCredentials.providers (fst r), snd r))
    <$> await (ChainCredentials.retrieve (spyOn fallbackChain) (world ∅ 0)) (world ∅ 0)
  = Some ([1; 1; 0], Fulfilled someKeys).
Proof. reflexivity. Qed.

(** C8: when every provider of the chain succeeds with both keys empty,
    and in particular when there is no provider, [retrieve()] is fulfilled
    with the anonymous credentials. *)
Theorem chain_exhausted_is_anonymous {P} `{!IProvider P}
    (this : ChainCredentials.t P) (w : World) :
  (∀ p, p ∈ ChainCredentials.providers this →
     ∃ p' cred, await (provider_retrieve p w) w = Some (p', Fulfilled cred) ∧
                accessKey cred = "" ∧ secretKey cred = "") →
  ∃ this',
    await (ChainCredentials.retrieve this w) w
      = Some (this', Fulfilled AnonymousCredentials) ∧
    AnonymousCredentials
      = {| accessKey := ""; secretKey := ""; sessionToken := None;
           signerType := Anonymous |}.
Proof.
  intros Hall.
  destruct (tryInOrder_all_empty (ChainCredentials.providers this) w)
    as [ps' Hloop].
  { intros p Hp. destruct (Hall p Hp) as (p' & cred & ? & ?).
    exists p', cred. by rewrite isEmpty_spec. }
  rewrite chain_retrieve_run, Hloop. simpl. eauto.
Qed.

Lemma chain_exhausted_is_anonymous_witness :
  ∃ this',
    await (ChainCredentials.retrieve blankChain (world ∅ 0)) (world ∅ 0)
      = Some (this', Fulfilled AnonymousCredentials) ∧
    AnonymousCredentials
      = {| accessKey := ""; secretKey := ""; sessionToken := None;
           signerType := Anonymous |}.
Proof.
  apply (chain_exhausted_is_anonymous blankChain (world ∅ 0)).
  intros p Hp. exists {| EnvMinio.retrieved := true |}, AnonymousCredentials.
  split; [|split; reflexivity].
  destruct p as [r]. reflexivity.
Defined.

Lemma chain_empty_is_anonymous {P} `{!IProvider P} (w : World) :
  await (ChainCredentials.retrieve (ChainCredentials.new ([] : list P)) w) w
  = Some (ChainCredentials.new [], Fulfilled AnonymousCredentials).
Proof. reflexivity. Qed.

(** C3 fails on the code: no statement assigns [curr].  After the chain
    over one static provider has resolved with that provider's keys,
    [curr] is still undefined and [isExpired()] answers true, although the
    provider that satisfied the call reports not expired. *)
Theorem chain_never_records_current :
  ∃ this',
    await (ChainCredentials.retrieve staticChain (world ∅ 0)) (world ∅ 0)
      = Some (this', Fulfilled someKeys) ∧
    ChainCredentials.curr this' = None ∧
    ChainCredentials.isExpired this' (world ∅ 0) = true ∧
    ChainCredentials.providers this' !! 0%nat
      = Some (StaticCred.new "AKIA1" "secret1" None None) ∧
    StaticCred.isExpired (StaticCred.new "AKIA1" "secret1" None None) (world ∅ 0)
      = false.
Proof. eexists. repeat split. Qed.

(** The same on every chain: [isExpired()] is true after any number of
    retrievals, because [curr] keeps the value the constructor gave it. *)
Lemma chain_isExpired_always {P} `{!IProvider P} (providers : list P)
    (this' : ChainCredentials.t P) (w w' : World) (o : Outcome ICredentials) :
  await (ChainCredentials.retrieve (ChainCredentials.new providers) w) w
    = Some (this', o) →
  ChainCredentials.isExpired this' w' = true.
Proof.
  intros Hrun. apply chain_curr_unchanged in Hrun.
  unfold ChainCredentials.isExpired. by rewrite Hrun.
Qed.

(** ** Credential cache *)

(** C9: a cache built with the default arguments has the force-refresh
    flag set, and its first [get()] calls the provider's [retrieve()]
    whatever the provider's [isExpired()] says: the promise returned is the
    one that this call made, and it is the only one in flight. *)
Theorem first_get_always_retrieves {P} `{!IProvider P} (provider : P) (w : World) :
  Credentials.forceRefresh (Credentials.this (Credentials.new provider None))
    = true ∧
  Credentials.get (Credentials.new provider None) w
    = ({| Credentials.this :=
            {| Credentials.provider := fst (provider_retrieve provider w);
               Credentials.forceRefresh := false;
               Credentials.creds := Some 0%nat |};
          Credentials.heap := [Credentials.Pending (snd (provider_retrieve provider w))] |},
       Some 0%nat) ∧
  Credentials.inFlight (fst (Credentials.get (Credentials.new provider None) w))
    = 1%nat.
Proof.
  unfold Credentials.get, Credentials.isExpired. simpl.
  destruct (provider_retrieve provider w) as [p promise]. simpl.
  repeat split.
Qed.

Example first_get_static_provider :
  let static := StaticCred.new "AKIA1" "secret1" None None in
  let w := world ∅ 0 in
  let st1 := fst (Credentials.get (Credentials.new static None) w) in
  provider_isExpired static w = false ∧
  snd (Credentials.get (Credentials.new static None) w) = Some 0 ∧
  Credentials.outcome_of (Some 0) (Credentials.settle 0 st1 w)
    = Some (Fulfilled someKeys) ∧
  Credentials.get (Credentials.settle 0 st1 w) w
    = (Credentials.settle 0 st1 w, Some 0).
Proof. repeat split. Qed.

(** A second [get()] while the first retrieval is pending starts another
    retrieval when the provider still reports expired. *)
Lemma get_again_while_expired {P} `{!IProvider P} (st : Credentials.Store P)
    (w w2 : World) :
  Credentials.isExpired st w = true →
  provider_isExpired
    (fst (provider_retrieve (Credentials.provider (Credentials.this st)) w)) w2
    = true →
  snd (Credentials.get st w) = Some (length (Credentials.heap st)) ∧
  snd (Credentials.get (fst (Credentials.get st w)) w2)
    = Some (S (length (Credentials.heap st))).
Proof.
  intros Hexp Hstill. unfold Credentials.get at 1 3. rewrite Hexp.
  destruct (provider_retrieve _ w) as [p promise]. simpl in *.
  unfold Credentials.get, Credentials.isExpired. simpl. rewrite Hstill.
  destruct (provider_retrieve p w2) as [p2 promise2]. simpl.
  rewrite length_app. simpl. split; [done|]. f_equal. lia.
Qed.

(** It is served the pending promise when the provider reports not
    expired as soon as [retrieve()] has been called. *)
Lemma get_again_while_fresh {P} `{!IProvider P} (st : Credentials.Store P)
    (w w2 : World) :
  Credentials.isExpired st w = true →
  provider_isExpired
    (fst (provider_retrieve (Credentials.provider (Credentials.this st)) w)) w2
    = false →
  Credentials.get (fst (Credentials.get st w)) w2
  = (fst (Credentials.get st w), snd (Credentials.get st w)).
Proof.
  intros Hexp Hfresh. unfold Credentials.get at 2 3 4. rewrite Hexp.
  destruct (provider_retrieve _ w) as [p promise]. simpl in *.
  unfold Credentials.get, Credentials.isExpired. simpl. by rewrite Hfresh.
Qed.

(** C5 fails on the code: on a cache over a chain with one static
    provider, two [get()] calls with no settling in between call
    [retrieve()] twice.  The callers hold two different promises and two
    retrievals are in flight. *)
Theorem get_while_pending_fetches_again :
  let st0 := Credentials.new staticChain None in
  let st1 := fst (Credentials.get st0 (world ∅ 0)) in
  let st2 := fst (Credentials.get st1 (world ∅ 0)) in
  snd (Credentials.get st0 (world ∅ 0)) = Some 0%nat ∧
  snd (Credentials.get st1 (world ∅ 0)) = Some 1%nat ∧
  Credentials.inFlight st1 = 1%nat ∧
  Credentials.inFlight st2 = 2%nat ∧
  Credentials.creds (Credentials.this st2) = Some 1%nat.
Proof. repeat split. Qed.

(** On a provider whose retrievals differ, the two callers are even served
    different results: the first promise is fulfilled, the second one is
    rejected. *)
Example get_while_pending_results_differ :
  let w := world ∅ 0 in
  let st1 := fst (Credentials.get (Credentials.new staleScripted None) w) in
  let st2 := fst (Credentials.get st1 w) in
  let settled := Credentials.settle 1 (Credentials.settle 0 st2 w) w in
  Credentials.inFlight st2 = 2 ∧
  Credentials.outcome_of (Some 0) settled = Some (Fulfilled someKeys) ∧
  Credentials.outcome_of (Some 1) settled = Some (Rejected transportError).
Proof. repeat split. Qed.

(** C1 fails on the code: the cache holds [someKeys], the refresh that the
    next [get()] starts is rejected, and afterwards [creds] refers to the
    rejected promise and the force-refresh flag is cleared.  The cache then
    reports not expired, and a further [get()] returns that rejected
    promise; it neither returns the keys that were cached before nor calls
    the provider again. *)
Theorem failed_get_replaces_cached_value :
  let w := world ∅ 0 in
  let st := cachedStore in
  let st1 := fst (Credentials.get st w) in
  let ref := snd (Credentials.get st w) in
  let st2 := Credentials.settle 1 st1 w in
  Credentials.outcome_of (Credentials.creds (Credentials.this st)) st
    = Some (Fulfilled someKeys) ∧
  Credentials.isExpired st w = true ∧
  Credentials.outcome_of ref st2 = Some (Rejected transportError) ∧
  Credentials.creds (Credentials.this st) = Some 0%nat ∧
  Credentials.creds (Credentials.this st2) = Some 1%nat ∧
  Credentials.forceRefresh (Credentials.this st) = true ∧
  Credentials.forceRefresh (Credentials.this st2) = false ∧
  Credentials.isExpired st2 w = false ∧
  Credentials.get st2 w = (st2, Some 1%nat) ∧
  Credentials.outcome_of (Some 1%nat) st2 = Some (Rejected transportError).
Proof. repeat split. Qed.

(** The same on every cache and provider: a [get()] that starts a retrieval
    stores the promise of that retrieval in [creds] and clears the
    force-refresh flag at once.  When the retrieval fails, the caller's
    promise is rejected with the provider's error and the cache keeps
    referring to that rejected promise.  A later [get()] returns the same
    rejected promise while the provider reports not expired, and calls
    [retrieve()] again when the provider reports expired. *)
Lemma failed_get_caches_the_failure {P} `{!IProvider P}
    (st : Credentials.Store P) (w w' : World) (p1 p2 : P)
    (promise : Promise P ICredentials) (e : Error) :
  Credentials.isExpired st w = true →
  provider_retrieve (Credentials.provider (Credentials.this st)) w = (p1, promise) →
  promise w' p1 = Some (p2, Rejected e) →
  let ref := length (Credentials.heap st) in
  let st1 := fst (Credentials.get st w) in
  let st2 := Credentials.settle ref st1 w' in
  snd (Credentials.get st w) = Some ref ∧
  Credentials.creds (Credentials.this st1) = Some ref ∧
  Credentials.forceRefresh (Credentials.this st1) = false ∧
  Credentials.outcome_of (Some ref) st2 = Some (Rejected e) ∧
  Credentials.creds (Credentials.this st2) = Some ref ∧
  Credentials.forceRefresh (Credentials.this st2) = false ∧
  Credentials.provider (Credentials.this st2) = p2 ∧
  (∀ w2, provider_isExpired p2 w2 = false →
         Credentials.get st2 w2 = (st2, Some ref)) ∧
  (∀ w2, provider_isExpired p2 w2 = true →
         Credentials.get st2 w2
         = ({| Credentials.this :=
                 {| Credentials.provider := fst (provider_retrieve p2 w2);
                    Credentials.forceRefresh := false;
                    Credentials.creds := Some (S ref) |};
               Credentials.heap :=
                 Credentials.heap st2
                   ++ [Credentials.Pending (snd (provider_retrieve p2 w2))] |},
            Some (S ref))).
Proof.
  intros Hexp Hcall Hsettle ref st1 st2.
  assert (Hget : Credentials.get st w
    = ({| Credentials.this :=
            {| Credentials.provider := p1; Credentials.forceRefresh := false;
               Credentials.creds := Some ref |};
          Credentials.heap := Credentials.heap st ++ [Credentials.Pending promise] |},
       Some ref)).
  { unfold Credentials.get. by rewrite Hexp, Hcall. }
  assert (Hst2 : st2
    = {| Credentials.this :=
           {| Credentials.provider := p2; Credentials.forceRefresh := false;
              Credentials.creds := Some ref |};
         Credentials.heap :=
           <[ref := Credentials.Settled (Rejected e)]>
             (Credentials.heap st ++ [Credentials.Pending promise]) |}).
  { subst st2 st1. rewrite Hget. unfold Credentials.settle. simpl.
    rewrite list_lookup_middle by done. simpl. by rewrite Hsettle. }
  subst st1. rewrite Hget, Hst2. clear Hst2 st2. simpl.
  repeat split.
  - rewrite list_lookup_insert_eq; [done|]. rewrite length_app. simpl. lia.
  - intros w2 Hfresh. unfold Credentials.get, Credentials.isExpired. simpl.
    by rewrite Hfresh.
  - intros w2 Hstale. unfold Credentials.get, Credentials.isExpired. simpl.
    rewrite Hstale. destruct (provider_retrieve p2 w2) as [p3 promise3]. simpl.
    rewrite length_insert, length_app. simpl.
    replace (length (Credentials.heap st) + 1)%nat with (S ref) by (subst ref; lia).
    reflexivity.
Qed.

Lemma failed_get_caches_the_failure_witness :
  let w := world ∅ 0 in
  let p := {| Stub.results := []; Stub.expired := false |} in
  let ref := length (Credentials.heap cachedStore) in
  let st1 := fst (Credentials.get cachedStore w) in
  let st2 := Credentials.settle ref st1 w in
  snd (Credentials.get cachedStore w) = Some ref ∧
  Credentials.creds (Credentials.this st1) = Some ref ∧
  Credentials.forceRefresh (Credentials.this st1) = false ∧
  Credentials.outcome_of (Some ref) st2 = Some (Rejected transportError) ∧
  Credentials.creds (Credentials.this st2) = Some ref ∧
  Credentials.forceRefresh (Credentials.this st2) = false ∧
  Credentials.provider (Credentials.this st2) = p ∧
  (∀ w2, provider_isExpired p w2 = false →
         Credentials.get st2 w2 = (st2, Some ref)) ∧
  (∀ w2, provider_isExpired p w2 = true →
         Credentials.get st2 w2
         = ({| Credentials.this :=
                 {| Credentials.provider := fst (provider_retrieve p w2);
                    Credentials.forceRefresh := false;
                    Credentials.creds := Some (S ref) |};
               Credentials.heap :=
                 Credentials.heap st2
                   ++ [Credentials.Pending (snd (provider_retrieve p w2))] |},
            Some (S ref))).
Proof.
  apply (failed_get_caches_the_failure cachedStore (world ∅ 0) (world ∅ 0)
           {| Stub.results := []; Stub.expired := false |}
           {| Stub.results := []; Stub.expired := false |}
           (fun _ this' => Some (this', Rejected transportError))
           transportError).
  - reflexivity.
  - reflexivity.
  - reflexivity.
Defined.

(** * Further properties *)

(** ** Expiry *)

(** X1: a window that is zero or negative is ignored by [setExpiration]:
    the tracker is expired exactly when now > T - max(window, 0). *)
Theorem Expiry_window_is_clamped (e : Expiry.t) (T window : Z) (w : World) :
  Expiry.isExpired (Expiry.setExpiration e T window) w
  = bool_decide (Date_now w > T - Z.max window 0)%Z.
Proof.
  unfold Expiry.isExpired, Expiry.setExpiration. simpl.
  destruct (decide (window > 0)%Z) as [Hpos|Hneg].
  - by rewrite Z.max_l by lia.
  - rewrite Z.max_r by lia. by rewrite Z.sub_0_r.
Qed.

(** X2: a tracker built with the default argument is not expired at the
    instant of its construction, and is expired at every later instant. *)
Theorem Expiry_fresh_tracker (w w' : World) :
  Expiry.isExpired (Expiry.new None w) w = false ∧
  ((Date_now w' > Date_now w)%Z →
     Expiry.isExpired (Expiry.new None w) w' = true) ∧
  ((Date_now w' <= Date_now w)%Z →
     Expiry.isExpired (Expiry.new None w) w' = false).
Proof.
  unfold Expiry.isExpired, Expiry.new. simpl. repeat split.
  - apply bool_decide_eq_false_2. lia.
  - intros Hlater. by apply bool_decide_eq_true_2.
  - intros Hbefore. apply bool_decide_eq_false_2. lia.
Qed.

(** ** Credential cache *)

Lemma gets_while_fresh {P} `{!IProvider P} (st : Credentials.Store P)
    (ws : list World) :
  Credentials.forceRefresh (Credentials.this st) = false →
  (∀ w, w ∈ ws →
     provider_isExpired (Credentials.provider (Credentials.this st)) w = false) →
  gets ws st = (st, replicate (length ws) (Credentials.creds (Credentials.this st))).
Proof.
  intros Hflag. induction ws as [|w ws IH]; intros Hfresh; simpl; [done|].
  unfold Credentials.get, Credentials.isExpired.
  rewrite Hflag, (Hfresh w) by left. simpl.
  rewrite IH; [done|]. intros w' Hw'. apply Hfresh. by right.
Qed.

Lemma cacheRun_fresh {P} `{!IProvider P} (p : P)
    (promise : Promise P ICredentials) (o : Outcome ICredentials)
    (ops : list CacheOp) :
  (∀ w, provider_isExpired p w = false) →
  (∀ w, promise w p = Some (p, o)) →
  OpExpire ∉ ops →
  let this := {| Credentials.provider := p; Credentials.forceRefresh := false;
                 Credentials.creds := Some 0 |} in
  let pending := {| Credentials.this := this;
                    Credentials.heap := [Credentials.Pending promise] |} in
  let settled := {| Credentials.this := this;
                    Credentials.heap := [Credentials.Settled o] |} in
  ∀ st, st = pending ∨ st = settled →
        cacheRun ops st = pending ∨ cacheRun ops st = settled.
Proof.
  intros Hfresh Hsettle Hops this pending settled. unfold cacheRun.
  induction ops as [|op ops IH]; intros st Hst; [done|].
  assert (Hop : op ≠ OpExpire) by (intros ->; apply Hops; by left).
  simpl. apply IH; [intros Hin; apply Hops; by right|].
  destruct op as [w| |ref w]; [| done |]; simpl.
  - unfold Credentials.get, Credentials.isExpired.
    destruct Hst as [-> | ->]; simpl; rewrite Hfresh; simpl; auto.
  - unfold Credentials.settle.
    destruct Hst as [-> | ->]; simpl.
    + destruct ref as [|ref]; simpl; [|by left].
      rewrite Hsettle. by right.
    + destruct ref as [|ref]; simpl; by right.
Qed.

(** X3: a cache over an environment provider reads the environment once.
    The first [get()] calls [retrieve()]; as long as [expire()] is not
    called, every later [get()], in whatever environment and whether the
    promise has settled or not, returns that same promise and calls
    [retrieve()] no more; the promise is fulfilled with what the
    environment held when the first [get()] was called. *)
Theorem env_cache_reads_once (w0 w w' : World) (ops : list CacheOp) :
  OpExpire ∉ ops →
  (let first := Credentials.get (Credentials.new EnvMinio.new None) w0 in
   let st := cacheRun ops (fst first) in
   snd first = Some 0 ∧
   Credentials.get st w = (st, Some 0) ∧
   length (Credentials.heap st) = 1 ∧
   Credentials.outcome_of (Some 0) (Credentials.settle 0 st w')
     = Some (Fulfilled (EnvMinio.read (process_env w0)))) ∧
  (let first := Credentials.get (Credentials.new EnvAWS.new None) w0 in
   let st := cacheRun ops (fst first) in
   snd first = Some 0 ∧
   Credentials.get st w = (st, Some 0) ∧
   length (Credentials.heap st) = 1 ∧
   Credentials.outcome_of (Some 0) (Credentials.settle 0 st w')
     = Some (Fulfilled (EnvAWS.read (process_env w0)))).
Proof.
  intros Hops. split.
  - simpl. split; [done|].
    destruct (cacheRun_fresh {| EnvMinio.retrieved := true |}
                (Promise_resolve (EnvMinio.read (process_env w0)))
                (Fulfilled (EnvMinio.read (process_env w0))) ops)
      with (st := fst (Credentials.get (Credentials.new EnvMinio.new None) w0))
      as [Hst|Hst]; try done; [by left|..]; simpl in Hst; rewrite Hst; done.
  - simpl. split; [done|].
    destruct (cacheRun_fresh {| EnvAWS.retrieved := true |}
                (Promise_resolve (EnvAWS.read (process_env w0)))
                (Fulfilled (EnvAWS.read (process_env w0))) ops)
      with (st := fst (Credentials.get (Credentials.new EnvAWS.new None) w0))
      as [Hst|Hst]; try done; [by left|..]; simpl in Hst; rewrite Hst; done.
Qed.

Lemma env_cache_reads_once_witness :
  let w0 := world {[ "MINIO_ACCESS_KEY" := "AKIA1"; "MINIO_SECRET_KEY" := "secret1";
                     "AWS_ACCESS_KEY" := "AKIA1"; "AWS_SECRET_KEY" := "secret1" ]} 0 in
  let ops := [OpGet (world ∅ 1); OpSettle 0 (world ∅ 2); OpGet (world ∅ 3)] in
  (let first := Credentials.get (Credentials.new EnvMinio.new None) w0 in
   let st := cacheRun ops (fst first) in
   snd first = Some 0 ∧
   Credentials.get st (world ∅ 4) = (st, Some 0) ∧
   length (Credentials.heap st) = 1 ∧
   Credentials.outcome_of (Some 0) (Credentials.settle 0 st (world ∅ 5))
     = Some (Fulfilled (EnvMinio.read (process_env w0)))) ∧
  (let first := Credentials.get (Credentials.new EnvAWS.new None) w0 in
   let st := cacheRun ops (fst first) in
   snd first = Some 0 ∧
   Credentials.get st (world ∅ 4) = (st, Some 0) ∧
   length (Credentials.heap st) = 1 ∧
   Credentials.outcome_of (Some 0) (Credentials.settle 0 st (world ∅ 5))
     = Some (Fulfilled (EnvAWS.read (process_env w0)))).
Proof.
  apply (env_cache_reads_once
           (world {[ "MINIO_ACCESS_KEY" := "AKIA1"; "MINIO_SECRET_KEY" := "secret1";
                     "AWS_ACCESS_KEY" := "AKIA1"; "AWS_SECRET_KEY" := "secret1" ]} 0)
           (world ∅ 4) (world ∅ 5)
           [OpGet (world ∅ 1); OpSettle 0 (world ∅ 2); OpGet (world ∅ 3)]).
  intros Hin.
  repeat (apply elem_of_cons in Hin as [Hin|Hin]; [discriminate|]).
  by apply elem_of_nil in Hin.
Defined.

(** X4: after [expire()], the next [get()] calls the provider's
    [retrieve()] whatever the provider's [isExpired()] answers, returns the
    new promise and clears the flag; calling [expire()] twice is the same
    as calling it once. *)
Theorem expire_forces_retrieve {P} `{!IProvider P} (st : Credentials.Store P)
    (w : World) :
  Credentials.expire (Credentials.expire st) = Credentials.expire st ∧
  Credentials.isExpired (Credentials.expire st) w = true ∧
  Credentials.get (Credentials.expire st) w
  = ({| Credentials.this :=
          {| Credentials.provider :=
               fst (provider_retrieve (Credentials.provider (Credentials.this st)) w);
             Credentials.forceRefresh := false;
             Credentials.creds := Some (length (Credentials.heap st)) |};
        Credentials.heap :=
          Credentials.heap st
            ++ [Credentials.Pending
                  (snd (provider_retrieve (Credentials.provider (Credentials.this st)) w))] |},
     Some (length (Credentials.heap st))).
Proof.
  split; [reflexivity|]. split; [reflexivity|].
  unfold Credentials.get, Credentials.isExpired, Credentials.expire. simpl.
  by destruct (provider_retrieve _ w) as [p promise].
Qed.

Lemma cacheStep_creds_latest {P} `{!IProvider P} (st : Credentials.Store P)
    (op : CacheOp) :
  Credentials.creds (Credentials.this st) = lastRef (Credentials.heap st) →
  Credentials.creds (Credentials.this (cacheStep st op))
  = lastRef (Credentials.heap (cacheStep st op)).
Proof.
  intros Hinv. destruct op as [w| |ref w]; simpl.
  - unfold Credentials.get. destruct (Credentials.isExpired st w); [|done].
    destruct (provider_retrieve _ w) as [p promise]. simpl.
    unfold lastRef. rewrite length_app. simpl.
    by replace (length (Credentials.heap st) + 1) with (S (length (Credentials.heap st))) by lia.
  - done.
  - unfold Credentials.settle.
    destruct (Credentials.heap st !! ref) as [[promise|o]|]; [|done|done].
    destruct (promise w _) as [[p o]|]; [|done]. simpl.
    unfold lastRef. by rewrite length_insert.
Qed.

(** X5: in every state that a cache reaches, [creds] refers to the promise
    of the latest [retrieve()] call, and is undefined exactly when
    [retrieve()] has never been called.  So [get()] returns undefined only
    on a cache built with [forceRefresh = false] whose provider has not
    reported expired yet. *)
Theorem cache_creds_is_latest {P} `{!IProvider P} (provider : P)
    (forceRefresh : option bool) (ops : list CacheOp) (w : World) :
  let st := cacheRun ops (Credentials.new provider forceRefresh) in
  Credentials.creds (Credentials.this st) = lastRef (Credentials.heap st) ∧
  snd (Credentials.get st w) = lastRef (Credentials.heap (fst (Credentials.get st w))).
Proof.
  simpl.
  assert (Hinv : ∀ st : Credentials.Store P,
            Credentials.creds (Credentials.this st) = lastRef (Credentials.heap st) →
            Credentials.creds (Credentials.this (cacheRun ops st))
            = lastRef (Credentials.heap (cacheRun ops st))).
  { unfold cacheRun. induction ops as [|op ops IH]; intros st Hst; simpl; [done|].
    apply IH. by apply cacheStep_creds_latest. }
  specialize (Hinv (Credentials.new provider forceRefresh) eq_refl).
  split; [done|].
  pose proof (cacheStep_creds_latest _ (OpGet w) Hinv) as Hget. simpl in Hget.
  rewrite <- Hget. unfold Credentials.get.
  destruct (Credentials.isExpired _ w); [|done].
  by destruct (provider_retrieve _ w).
Qed.

(** ** Chain resolver *)

Lemma _retrieve_keeps_curr {P} `{!IProvider P} (fuel index : nat)
    (this : ChainCredentials.t P) (w : World) :
  ChainCredentials.curr (fst (ChainCredentials._retrieve fuel index this w))
    = ChainCredentials.curr this ∧
  keepsCurr (snd (ChainCredentials._retrieve fuel index this w)).
Proof.
  revert index this w.
  induction fuel as [|fuel IH]; intros index this w; simpl.
  all: case_bool_decide;
    [split; [done|by intros w' s s' o [= <- _]]|].
  all: destruct (ChainCredentials.providers this !! index) as [p|];
    [|split; [done|by intros w' s s' o]].
  all: destruct (provider_retrieve p w) as [p1 promise]; simpl.
  all: split; [done|].
  all: intros w' s s' o.
  all: destruct (ChainCredentials.providers s !! index) as [q|]; [|done].
  all: destruct (promise w' q) as [[q' [cred|e]]|]; [|by intros [= <- _]|done].
  all: destruct (ChainCredentials.isEmpty cred); [|by intros [= <- _]].
  - done.
  - unfold await. specialize (IH (index + 1) (ChainCredentials.update index q' s) w').
    destruct (ChainCredentials._retrieve fuel (index + 1) _ w') as [t promise'].
    simpl in IH. destruct IH as [Ht Hkeeps]. intros Hsettle.
    apply Hkeeps in Hsettle. by rewrite Hsettle, Ht.
Qed.

Lemma cacheStep_chain {P} `{!IProvider P}
    (st : Credentials.Store (ChainCredentials.t P)) (op : CacheOp) :
  ChainCredentials.curr (Credentials.provider (Credentials.this st)) = None →
  (∀ r promise, Credentials.heap st !! r = Some (Credentials.Pending promise) →
     keepsCurr promise) →
  ChainCredentials.curr (Credentials.provider (Credentials.this (cacheStep st op)))
    = None ∧
  (∀ r promise,
     Credentials.heap (cacheStep st op) !! r = Some (Credentials.Pending promise) →
     keepsCurr promise).
Proof.
  intros Hcurr Hheap. destruct op as [w| |ref w]; simpl.
  - unfold Credentials.get. destruct (Credentials.isExpired st w); [|done].
    unfold provider_retrieve. simpl. unfold ChainCredentials.retrieve.
    pose proof (_retrieve_keeps_curr
                  (length (ChainCredentials.providers
                             (Credentials.provider (Credentials.this st))))
                  0 (Credentials.provider (Credentials.this st)) w) as [Hcall Hkeeps].
    destruct (ChainCredentials._retrieve _ 0 _ w) as [p promise]. simpl in *.
    split; [congruence|].
    intros r promise' Hr. apply lookup_app_Some in Hr as [Hr|[_ Hr]]; [by eapply Hheap|].
    destruct (r - length (Credentials.heap st)) as [|n]; [|done].
    by injection Hr as <-.
  - done.
  - unfold Credentials.settle.
    destruct (Credentials.heap st !! ref) as [[promise|o]|] eqn:Href; [|done..].
    destruct (promise w _) as [[p o]|] eqn:Hsettle; [|done]. simpl.
    split.
    + apply (Hheap _ _ Href) in Hsettle. congruence.
    + intros r promise' Hr. destruct (decide (ref = r)) as [->|Hne].
      * rewrite list_lookup_insert_eq in Hr by (by eapply lookup_lt_Some). done.
      * rewrite list_lookup_insert_ne in Hr by done. by eapply Hheap.
Qed.

(** X7: a cache over a chain never serves a cached promise.  In every
    state that such a cache reaches, [isExpired()] is true and [get()]
    calls the chain's [retrieve()] and returns a new promise. *)
Theorem cache_over_chain_always_retrieves {P} `{!IProvider P}
    (providers : list P) (forceRefresh : option bool) (ops : list CacheOp)
    (w : World) :
  let st := cacheRun ops
              (Credentials.new (ChainCredentials.new providers) forceRefresh) in
  Credentials.isExpired st w = true ∧
  snd (Credentials.get st w) = Some (length (Credentials.heap st)) ∧
  length (Credentials.heap (fst (Credentials.get st w)))
    = S (length (Credentials.heap st)).
Proof.
  simpl.
  assert (Hinv : ∀ st : Credentials.Store (ChainCredentials.t P),
            ChainCredentials.curr (Credentials.provider (Credentials.this st)) = None →
            (∀ r promise,
               Credentials.heap st !! r = Some (Credentials.Pending promise) →
               keepsCurr promise) →
            ChainCredentials.curr
              (Credentials.provider (Credentials.this (cacheRun ops st))) = None).
  { unfold cacheRun. induction ops as [|op ops IH]; intros st Hcurr Hheap; simpl;
      [done|].
    destruct (cacheStep_chain st op Hcurr Hheap) as [Hcurr' Hheap'].
    by apply IH. }
  specialize (Hinv (Credentials.new (ChainCredentials.new providers) forceRefresh)
                eq_refl).
  assert (Hexp : Credentials.isExpired
            (cacheRun ops
               (Credentials.new (ChainCredentials.new providers) forceRefresh)) w
            = true).
  { unfold Credentials.isExpired, provider_isExpired. simpl.
    unfold ChainCredentials.isExpired. rewrite Hinv by done.
    apply orb_true_r. }
  split; [done|]. unfold Credentials.get. rewrite Hexp.
  destruct (provider_retrieve _ w) as [p promise]. simpl.
  rewrite length_app. simpl. split; [done|lia].
Qed.

Lemma tryInOrder_cons {P} `{!IProvider P} (p : P) (rest : list P) (w : World) :
  tryInOrder (p :: rest) w
  = match await (provider_retrieve p w) w with
    | None => None
    | Some (p', Rejected e) => Some (p' :: rest, Rejected e)
    | Some (p', Fulfilled cred) =>
        if ChainCredentials.isEmpty cred then
          match tryInOrder rest w with
          | None => None
          | Some (rest', outcome) => Some (p' :: rest', outcome)
          end
        else Some (p' :: rest, Fulfilled cred)
    end.
Proof. reflexivity. Qed.

Lemma tryInOrder_spied_calls {P} `{!IProvider P} (ps : list P) (w : World)
    (ps' : list (Spy.t P)) (o : Outcome ICredentials) :
  tryInOrder (Spy.new <$> ps) w = Some (ps', o) →
  ∃ n, n ≤ length ps ∧
       Spy.calls <$> ps' = replicate n 1 ++ replicate (length ps - n) 0.
Proof.
  assert (Hnew : ∀ qs : list P,
            Spy.calls <$> (Spy.new <$> qs) = replicate (length qs) 0).
  { induction qs as [|q qs IHq]; [done|]. rewrite !fmap_cons. simpl. by f_equal. }
  revert ps' o. induction ps as [|p rest IH]; intros ps' o.
  - simpl. intros [= <- _]. exists 0. split; [lia|done].
  - rewrite fmap_cons, tryInOrder_cons.
    destruct (await (provider_retrieve (Spy.new p) w) w) as [[s' [cred|e]]|] eqn:Hrun;
      [| |done].
    + apply Spy_await in Hrun as Hcalls. simpl in Hcalls.
      destruct (ChainCredentials.isEmpty cred).
      * destruct (tryInOrder (Spy.new <$> rest) w) as [[rest' o']|] eqn:Hrest; [|done].
        intros [= <- <-]. destruct (IH rest' o' eq_refl) as (n & Hn & Hrest').
        exists (S n). split; [simpl; lia|]. rewrite fmap_cons, Hcalls, Hrest'. done.
      * intros [= <- <-]. exists 1. split; [simpl; lia|].
        rewrite fmap_cons, Hcalls, Hnew. simpl. by rewrite Nat.sub_0_r.
    + apply Spy_await in Hrun as Hcalls. simpl in Hcalls.
      intros [= <- <-]. exists 1. split; [simpl; lia|].
      rewrite fmap_cons, Hcalls, Hnew. simpl. by rewrite Nat.sub_0_r.
Qed.

(** X8: one [retrieve()] of a chain consults its providers strictly in
    order, each at most once and without gaps: when the promise has
    settled, the providers called are exactly the first [n] of the list,
    for some [n], each called once. *)
Theorem chain_calls_form_a_prefix {P} `{!IProvider P}
    (this : ChainCredentials.t P) (w : World)
    (spied' : ChainCredentials.t (Spy.t P)) (o : Outcome ICredentials) :
  await (ChainCredentials.retrieve (spyOn this) w) w = Some (spied', o) →
  ∃ n, n ≤ length (ChainCredentials.providers this) ∧
       Spy.calls <$> ChainCredentials.providers spied'
       = replicate n 1
           ++ replicate (length (ChainCredentials.providers this) - n) 0.
Proof.
  rewrite chain_retrieve_run. simpl.
  destruct (tryInOrder _ w) as [[ps' o']|] eqn:Hloop; [|done].
  intros [= <- _]. simpl. by eapply tryInOrder_spied_calls.
Qed.

Lemma chain_calls_form_a_prefix_witness :
  ∃ n, n ≤ length (ChainCredentials.providers fallbackChain) ∧
       [1; 1; 0]
       = replicate n 1
           ++ replicate (length (ChainCredentials.providers fallbackChain) - n) 0.
Proof.
  apply (chain_calls_form_a_prefix fallbackChain (world ∅ 0)
           {| ChainCredentials.providers :=
                [ {| Spy.inner := {| Stub.results := []; Stub.expired := true |};
                     Spy.calls := 1 |};
                  {| Spy.inner := {| Stub.results := []; Stub.expired := false |};
                     Spy.calls := 1 |};
                  Spy.new (stub (Rejected transportError) true) ];
              ChainCredentials.curr := None |}
           (Fulfilled someKeys)).
  reflexivity.
Defined.

Lemma tryInOrder_fulfilled {P} `{!IProvider P} (ps ps' : list P) (w : World)
    (cred : ICredentials) :
  tryInOrder ps w = Some (ps', Fulfilled cred) →
  ChainCredentials.isEmpty cred = true →
  cred = AnonymousCredentials.
Proof.
  revert ps'. induction ps as [|p rest IH]; intros ps'; simpl.
  - by intros [= _ <-].
  - destruct (await (provider_retrieve p w) w) as [[p' [c|e]]|]; [|done..].
    destruct (ChainCredentials.isEmpty c) eqn:Hc.
    + destruct (tryInOrder rest w) as [[rest' o]|]; [|done].
      intros [= _ ->]. by eapply IH.
    + intros [= _ <-]. congruence.
Qed.

(** X9: a chain never hands out a provider's empty credentials.  When its
    promise is fulfilled with both keys empty, the value is the anonymous
    constant: signature kind [Anonymous] and no session token, whatever the
    providers' empty credentials carried. *)
Theorem chain_empty_result_is_anonymous {P} `{!IProvider P}
    (this this' : ChainCredentials.t P) (w : World) (cred : ICredentials) :
  await (ChainCredentials.retrieve this w) w = Some (this', Fulfilled cred) →
  accessKey cred = "" ∧ secretKey cred = "" →
  cred = AnonymousCredentials.
Proof.
  rewrite chain_retrieve_run.
  destruct (tryInOrder _ w) as [[ps' o]|] eqn:Hloop; [|done]. simpl.
  intros [= _ ->] Hempty. eapply tryInOrder_fulfilled; [done|].
  by rewrite isEmpty_spec.
Qed.

Lemma chain_empty_result_is_anonymous_witness :
  await (ChainCredentials.retrieve emptyStaticChain (world ∅ 0)) (world ∅ 0)
    = Some (emptyStaticChain, Fulfilled AnonymousCredentials) ∧
  AnonymousCredentials = AnonymousCredentials.
Proof.
  split; [reflexivity|].
  apply (chain_empty_result_is_anonymous emptyStaticChain emptyStaticChain
           (world ∅ 0) AnonymousCredentials).
  - reflexivity.
  - split; reflexivity.
Defined.

Lemma tryInOrder_rejected {P} `{!IProvider P} (ps ps' : list P) (w : World)
    (e : Error) :
  tryInOrder ps w = Some (ps', Rejected e) →
  ∃ i p p', ps !! i = Some p ∧
            await (provider_retrieve p w) w = Some (p', Rejected e).
Proof.
  revert ps'. induction ps as [|p rest IH]; intros ps'; simpl; [done|].
  destruct (await (provider_retrieve p w) w) as [[p' [c|e']]|] eqn:Hrun; [| |done].
  - destruct (ChainCredentials.isEmpty c); [|done].
    destruct (tryInOrder rest w) as [[rest' o]|]; [|done].
    intros [= _ ->]. destruct (IH rest' eq_refl) as (i & q & q' & Hi & Hq).
    by exists (S i), q, q'.
  - intros [= _ ->]. by exists 0, p, p'.
Qed.

(** X10: a chain raises no error of its own.  When its promise is
    rejected, the reason is the one with which one of its providers
    rejected. *)
Theorem chain_rejection_comes_from_a_provider {P} `{!IProvider P}
    (this this' : ChainCredentials.t P) (w : World) (e : Error) :
  await (ChainCredentials.retrieve this w) w = Some (this', Rejected e) →
  ∃ i p p', ChainCredentials.providers this !! i = Some p ∧
            await (provider_retrieve p w) w = Some (p', Rejected e).
Proof.
  rewrite chain_retrieve_run.
  destruct (tryInOrder _ w) as [[ps' o]|] eqn:Hloop; [|done]. simpl.
  intros [= _ ->]. by eapply tryInOrder_rejected.
Qed.

Lemma chain_rejection_comes_from_a_provider_witness :
  ∃ i p p', ChainCredentials.providers failingChain !! i = Some p ∧
            await (provider_retrieve p (world ∅ 0)) (world ∅ 0)
              = Some (p', Rejected transportError).
Proof.
  apply (chain_rejection_comes_from_a_provider failingChain
           {| ChainCredentials.providers :=
                [ {| Stub.results := []; Stub.expired := true |};
                  {| Stub.results := []; Stub.expired := true |};
                  stub (Fulfilled someKeys) false ];
              ChainCredentials.curr := None |}
           (world ∅ 0) transportError).
  reflexivity.
Defined.

(** ** Metadata-service provider *)

Section MetadataService.

Variable JSON_parse : string → Error + IAMCredentials.IEc2RoleCredRespBody.
Variable Date_getTime : string → Z.
Variable path_join : list string → string.
Variable String_trim : string → string.

Local Abbreviation retrieve := (IAMCredentials.retrieve JSON_parse Date_getTime path_join String_trim).
Local Abbreviation getCredentials := (IAMCredentials.getCredentials JSON_parse path_join String_trim).
Local Abbreviation getEcsTaskCredentials := (IAMCredentials.getEcsTaskCredentials JSON_parse String_trim).
Local Abbreviation httpGet := (IAMCredentials.httpGet String_trim).



(** X12: a retrieval that fails leaves the provider as it was: the call
    itself changes nothing, and when its promise is rejected, because the
    request or the parsing failed, the expiry tracker keeps its
    expiration. *)
Theorem IAM_failed_fetch_keeps_expiry (this this' : IAMCredentials.t)
    (w w' : World) :
  fst (retrieve this w) = this ∧
  ∀ this2 e,
    IAMCredentials.floating (snd (retrieve this w)) w' this' = Some (this2, Rejected e) →
    this2 = this'.
Proof.
  unfold IAMCredentials.retrieve.
  destruct (IAMCredentials.getEndpoint _ _) as [url ecs]. simpl.
  split; [done|].
  destruct ecs.
  - destruct (IAMCredentials.getEcsTaskCredentials _ _ _ _) as [doc|e'];
      intros this2 e; [done|by intros [= <- _]].
  - destruct (IAMCredentials.getCredentials _ _ _ _ _) as [doc|e'];
      intros this2 e; [done|by intros [= <- _]].
Qed.

(** X13: in EC2 mode the role is listed first, and when that request fails
    no credential document is asked for: a transport error is passed on, a
    status other than 200 is rejected with an error that names the status,
    and an empty list of roles is rejected with the text
    "No IAM roles attached to this EC2 service". *)
Theorem getCredentials_first_request_fails (endpoint : string) (w : World) :
  let url := path_join [endpoint; IAMCredentials.defaultIAMSecurityCredsPath] in
  (∀ e, http_get w url = inl e → getCredentials endpoint w = Rejected e) ∧
  (∀ res, http_get w url = inr res → statusCode res ≠ 200%Z →
     getCredentials endpoint w
     = Rejected (ErrorObject "Error"
         ("Request Failed." +:+ String (Ascii.ascii_of_nat 10) "" +:+ "Status Code: "
            +:+ pretty (statusCode res)))) ∧
  (∀ res, http_get w url = inr res → statusCode res = 200%Z →
     String_trim (rawData res) = "" →
     getCredentials endpoint w
     = Rejected (Reason "No IAM roles attached to this EC2 service")).
Proof.
  simpl. unfold IAMCredentials.getCredentials, IAMCredentials.listRoleNames,
    IAMCredentials.httpGet.
  repeat split.
  - by intros e ->.
  - intros res -> Hstatus. by rewrite (bool_decide_eq_false_2 _ Hstatus).
  - intros res -> Hstatus Hempty. rewrite (bool_decide_eq_true_2 _ Hstatus). simpl.
    by rewrite Hempty.
Qed.

(** X14: in EC2 mode the credential document is obtained exactly when both
    requests are answered with status 200, the trimmed body of the first
    is a non-empty role name, the second goes to the path of that role,
    and its trimmed body parses. *)
Theorem getCredentials_success_iff (endpoint : string) (w : World)
    (doc : IAMCredentials.IEc2RoleCredRespBody) :
  getCredentials endpoint w = Fulfilled doc ↔
  ∃ res1 res2,
    http_get w (path_join [endpoint; IAMCredentials.defaultIAMSecurityCredsPath])
      = inr res1 ∧
    statusCode res1 = 200%Z ∧
    String_trim (rawData res1) ≠ "" ∧
    http_get w (path_join [endpoint; IAMCredentials.defaultIAMSecurityCredsPath;
                           String_trim (rawData res1)])
      = inr res2 ∧
    statusCode res2 = 200%Z ∧
    JSON_parse (String_trim (rawData res2)) = inr doc.
Proof.
  unfold IAMCredentials.getCredentials, IAMCredentials.listRoleNames,
    IAMCredentials.getEcsTaskCredentials, IAMCredentials.httpGetJSON,
    IAMCredentials.httpGet.
  split.
  - destruct (http_get w _) as [e1|res1] eqn:H1; [done|]. simpl.
    case_bool_decide as Hs1; [|done]. simpl.
    case_bool_decide as Hrole; [|done]. simpl.
    destruct (http_get w (path_join [_; _; _])) as [e2|res2] eqn:H2; [done|]. simpl.
    case_bool_decide as Hs2; [|done]. simpl.
    destruct (JSON_parse _) as [e3|doc'] eqn:H3; [done|]. intros [= ->].
    exists res1, res2. repeat split; try done.
    intros Hempty. rewrite Hempty in Hrole. simpl in Hrole. lia.
  - intros (res1 & res2 & -> & Hs1 & Hrole & H2 & Hs2 & H3). simpl.
    rewrite (bool_decide_eq_true_2 _ Hs1). simpl.
    rewrite bool_decide_eq_true_2.
    + simpl. rewrite H2. simpl. rewrite (bool_decide_eq_true_2 _ Hs2). simpl.
      by rewrite H3.
    + destruct (String_trim (rawData res1)); [done|]. simpl. lia.
Qed.

End MetadataService.


Example getCredentials_instance_metadata :
  IAMCredentials.getCredentials parseRoleDocument joinPaths id
    "http://169.254.169.254" instanceWorld
  = Fulfilled roleDocument.
Proof. reflexivity. Qed.

(** * Properties of [helpers.ts] *)

(** ** Strings *)

Lemma chars_str (l : list ascii) : JS.chars (JS.str l) = l.
Proof. apply String.list_ascii_of_string_of_list_ascii. Qed.

Lemma str_chars (s : string) : JS.str (JS.chars s) = s.
Proof. apply String.string_of_list_ascii_of_string. Qed.

Lemma chars_app (a b : string) : JS.chars (a +:+ b) = JS.chars a ++ JS.chars b.
Proof. induction a as [|c a IH]; simpl; [done|]. unfold JS.chars in *. simpl. by f_equal. Qed.

Lemma str_app (l1 l2 : list ascii) : JS.str (l1 ++ l2) = JS.str l1 +:+ JS.str l2.
Proof. induction l1 as [|c l1 IH]; [done|]. unfold JS.str in *. simpl. by rewrite IH. Qed.

Lemma String_app_cons (x : ascii) (a b : string) :
  String x a +:+ b = String x (a +:+ b).
Proof. reflexivity. Qed.

Lemma String_app_assoc (a b c : string) : (a +:+ b) +:+ c = a +:+ (b +:+ c).
Proof. induction a as [|x a IH]; [done|]. by rewrite !String_app_cons, IH. Qed.

Lemma String_app_nil_r (a : string) : a +:+ "" = a.
Proof. induction a as [|x a IH]; [done|]. by rewrite String_app_cons, IH. Qed.

Lemma String_length_chars (s : string) : String.length s = length (JS.chars s).
Proof. induction s as [|c s IH]; simpl; [done|]. unfold JS.chars in *. simpl. by f_equal. Qed.

Lemma String_length_app (a b : string) :
  String.length (a +:+ b) = String.length a + String.length b.
Proof. by rewrite !String_length_chars, chars_app, length_app. Qed.

(** Case analysis on the 256 code units. *)
Ltac each_char c :=
  destruct c as [[|] [|] [|] [|] [|] [|] [|] [|]].

(** ** [uriEscape] *)

Lemma uriEscape_bytes_acc (acc : string) (buf : list N) :
  foldl (λ acc b, acc +:+ "%" +:+ JS.toString16Upper b) acc buf
  = acc +:+ foldl (λ acc b, acc +:+ "%" +:+ JS.toString16Upper b) "" buf.
Proof.
  revert acc. induction buf as [|b buf IH]; intros acc; simpl.
  - by rewrite String_app_nil_r.
  - rewrite IH, (IH ("" +:+ _)). by rewrite String_app_assoc.
Qed.

Lemma uriEscape_step_acc (acc elem : string) :
  Helpers.uriEscape_step acc elem = acc +:+ Helpers.uriEscape_step "" elem.
Proof.
  unfold Helpers.uriEscape_step.
  destruct (bool_decide _ && Helpers.isUnreserved elem); [done|].
  apply uriEscape_bytes_acc.
Qed.

Lemma uriEscape_fold_acc (acc : string) (elems : list string) :
  foldl Helpers.uriEscape_step acc elems
  = acc +:+ foldl Helpers.uriEscape_step "" elems.
Proof.
  revert acc. induction elems as [|elem elems IH]; intros acc; simpl.
  - by rewrite String_app_nil_r.
  - rewrite IH, (IH (Helpers.uriEscape_step "" elem)), uriEscape_step_acc.
    by rewrite String_app_assoc.
Qed.

Lemma uriEscape_cons (c : ascii) (s : string) :
  Helpers.uriEscape (String c s)
  = Helpers.uriEscape (String c "") +:+ Helpers.uriEscape s.
Proof.
  unfold Helpers.uriEscape, JS.split, JS.chars. simpl.
  by rewrite uriEscape_fold_acc.
Qed.

Lemma uriEscape_app (a b : string) :
  Helpers.uriEscape (a +:+ b) = Helpers.uriEscape a +:+ Helpers.uriEscape b.
Proof.
  induction a as [|c a IH]; [done|].
  rewrite String_app_cons, uriEscape_cons, IH, (uriEscape_cons c a).
  by rewrite String_app_assoc.
Qed.

(** X15: [uriEscape] works character by character, so that escaping
    distributes over concatenation: the escape of the parts joined is the
    escapes of the parts, joined. *)
Theorem uriEscape_concat (parts : list string) :
  Helpers.uriEscape (foldr String.append "" parts)
  = foldr String.append "" (Helpers.uriEscape <$> parts).
Proof.
  induction parts as [|part parts IH]; [done|].
  rewrite fmap_cons. simpl. by rewrite uriEscape_app, IH.
Qed.

Lemma uriEscape_char_output (c : ascii) :
  forallb (λ x, Helpers.isUnreserved (String x "") || bool_decide (x = "%"%char))
    (JS.chars (Helpers.uriEscape (String c ""))) = true.
Proof. each_char c; vm_compute; reflexivity. Qed.

Lemma uriEscape_char_unreserved (c : ascii) :
  Helpers.isUnreserved (String c "") = true →
  Helpers.uriEscape (String c "") = String c "".
Proof. each_char c; vm_compute; intros H; done. Qed.

(** X16: the result of [uriEscape] holds unreserved characters (letters,
    digits, [_], [.], [~], [-]) and percent signs only, and a string of
    unreserved characters is returned as it is. *)
Theorem uriEscape_output (s : string) :
  (∀ x, x ∈ JS.chars (Helpers.uriEscape s) →
        Helpers.isUnreserved (String x "") = true ∨ x = "%"%char) ∧
  ((∀ c, c ∈ JS.chars s → Helpers.isUnreserved (String c "") = true) →
   Helpers.uriEscape s = s).
Proof.
  split.
  - induction s as [|c s IH]; intros x Hx.
    + by apply elem_of_nil in Hx.
    + rewrite uriEscape_cons, chars_app in Hx.
      apply elem_of_app in Hx as [Hx|Hx]; [|by apply IH].
      pose proof (uriEscape_char_output c) as Hc.
      rewrite forallb_forall in Hc. apply list_elem_of_In, Hc in Hx.
      apply orb_true_iff in Hx as [Hx|Hx]; [by left|right].
      by apply bool_decide_eq_true in Hx.
  - induction s as [|c s IH]; intros Hall; [done|].
    rewrite uriEscape_cons, uriEscape_char_unreserved, IH; [done| |].
    + intros x Hx. apply Hall. unfold JS.chars in *. simpl. by right.
    + apply Hall. unfold JS.chars. simpl. by left.
Qed.

Lemma uriEscape_low_byte (h : N) :
  (h < 16)%N →
  Helpers.uriEscape (String (ascii_of_N 1) (String (JS.hexDigit h) ""))
  = Helpers.uriEscape (String (ascii_of_N (16 + h)) "").
Proof.
  intros Hh.
  assert (Hcases : (h = 0 ∨ h = 1 ∨ h = 2 ∨ h = 3 ∨ h = 4 ∨ h = 5 ∨ h = 6 ∨ h = 7 ∨
                    h = 8 ∨ h = 9 ∨ h = 10 ∨ h = 11 ∨ h = 12 ∨ h = 13 ∨ h = 14 ∨
                    h = 15)%N) by lia.
  destruct_or!; subst h; by vm_compute.
Qed.

(** X17: a byte below 16 is written with one hexadecimal digit, without a
    leading zero, and so [uriEscape] is not injective: the character U+0001
    followed by a hexadecimal digit [h] is escaped to the same text as the
    single character of code 16 + h. *)
Theorem uriEscape_is_not_injective (a b : string) (h : N) :
  (h < 16)%N →
  Helpers.uriEscape (a +:+ String (ascii_of_N 1) (String (JS.hexDigit h) b))
  = Helpers.uriEscape (a +:+ String (ascii_of_N (16 + h)) b) ∧
  String.length (a +:+ String (ascii_of_N 1) (String (JS.hexDigit h) b))
  = S (String.length (a +:+ String (ascii_of_N (16 + h)) b)).
Proof.
  intros Hh. split.
  - rewrite !uriEscape_app. f_equal.
    change (String (ascii_of_N 1) (String (JS.hexDigit h) b))
      with (String (ascii_of_N 1) (String (JS.hexDigit h) "") +:+ b).
    change (String (ascii_of_N (16 + h)) b)
      with (String (ascii_of_N (16 + h)) "" +:+ b).
    rewrite !uriEscape_app. f_equal. by apply uriEscape_low_byte.
  - rewrite !String_length_app. simpl. lia.
Qed.

Lemma uriEscape_is_not_injective_witness :
  Helpers.uriEscape ("x" +:+ String (ascii_of_N 1) (String (JS.hexDigit 0) "y"))
  = Helpers.uriEscape ("x" +:+ String (ascii_of_N (16 + 0)) "y") ∧
  String.length ("x" +:+ String (ascii_of_N 1) (String (JS.hexDigit 0) "y"))
  = S (String.length ("x" +:+ String (ascii_of_N (16 + 0)) "y")).
Proof. apply (uriEscape_is_not_injective "x" "y" 0%N). reflexivity. Defined.

(** ** [uriResourceEscape] *)

Lemma replace_2F_token (c : ascii) (rest : list ascii) :
  (16 <= N_of_ascii c)%N →
  Helpers.replace_2F (JS.chars (Helpers.uriEscape (String c "")) ++ rest)
  = (if bool_decide (c = "/"%char) then ["/"%char]
     else JS.chars (Helpers.uriEscape (String c "")))
    ++ Helpers.replace_2F rest.
Proof.
  intros Hc. each_char c;
    first [ by (exfalso; apply Hc; reflexivity) | by vm_compute ].
Qed.

(** X18: on a string without code units below 16, [uriResourceEscape]
    escapes every character as [uriEscape] does, except the slash, which it
    leaves as it is. *)
Theorem uriResourceEscape_keeps_slashes (s : string) :
  (∀ c, c ∈ JS.chars s → (16 <= N_of_ascii c)%N) →
  Helpers.uriResourceEscape s
  = JS.str (JS.chars s ≫= λ c,
      if bool_decide (c = "/"%char) then ["/"%char]
      else JS.chars (Helpers.uriEscape (String c ""))).
Proof.
  intros Hall. unfold Helpers.uriResourceEscape. f_equal.
  induction s as [|c s IH]; [done|].
  rewrite uriEscape_cons, chars_app, replace_2F_token.
  - rewrite IH; [done|]. intros x Hx. apply Hall. unfold JS.chars in *. simpl. by right.
  - apply Hall. unfold JS.chars. simpl. by left.
Qed.

Lemma uriResourceEscape_keeps_slashes_witness :
  Helpers.uriResourceEscape "a b/c%2F"
  = JS.str (JS.chars "a b/c%2F" ≫= λ c,
      if bool_decide (c = "/"%char) then ["/"%char]
      else JS.chars (Helpers.uriEscape (String c ""))).
Proof.
  apply (uriResourceEscape_keeps_slashes "a b/c%2F").
  intros c Hc. unfold JS.chars in Hc. simpl in Hc.
  repeat (apply elem_of_cons in Hc as [->|Hc]; [by vm_compute|]).
  by apply elem_of_nil in Hc.
Defined.

Example uriResourceEscape_examples :
  Helpers.uriEscape "a b/c%2F" = "a%20b%2Fc%252F" ∧
  Helpers.uriResourceEscape "a b/c%2F" = "a%20b/c%252F" ∧
  Helpers.uriResourceEscape (String (ascii_of_N 2) "F") = "/".
Proof. repeat split. Qed.

(** ** The matcher *)

Section RegexFacts.

Import Regex.

Lemma Matches_nil_nullable (r : Regex.t) :
  Matches r [] ↔ nullable r = true.
Proof.
  split.
  - intros H. remember [] as empty eqn:Hs. induction H; simpl; try done.
    + apply app_eq_nil in Hs as [-> ->]. by rewrite IHMatches1, IHMatches2.
    + by rewrite IHMatches.
    + rewrite IHMatches by done. apply orb_true_r.
  - induction r; simpl; try done.
    + intros _. constructor.
    + intros [H1 H2]%andb_true_iff.
      change (@nil ascii) with (@nil ascii ++ []). constructor; auto.
    + intros [H|H]%orb_true_iff; [apply MAltL|apply MAltR]; auto.
    + intros _. constructor.
Qed.

Lemma Matches_star_cons (r : Regex.t) (c : ascii) (s : list ascii) :
  Matches (Star r) (c :: s) →
  ∃ s1 s2, s = s1 ++ s2 ∧ Matches r (c :: s1) ∧ Matches (Star r) s2.
Proof.
  intros H. remember (Star r) as r' eqn:Hr. remember (c :: s) as cs eqn:Hcs.
  revert s Hcs.
  induction H as [| | | | | |r0 s1 s2 H1 IH1 H2 IH2]; intros t Hcs; try done.
  injection Hr as ->. destruct s1 as [|x s1].
  - simpl in Hcs. by apply IH2.
  - simplify_eq/=. eauto.
Qed.

Lemma Matches_deriv (c : ascii) (r : Regex.t) (s : list ascii) :
  Matches (deriv c r) s ↔ Matches r (c :: s).
Proof.
  revert s. induction r as [| |p|r1 IH1 r2 IH2|r1 IH1 r2 IH2|r IH]; intros s; simpl.
  - split; inversion 1.
  - split; inversion 1.
  - destruct (p c) eqn:Hp; split; inversion 1; subst.
    + by constructor.
    + constructor.
    + congruence.
  - destruct (nullable r1) eqn:Hnull.
    + split.
      * inversion 1 as [| | | ? ? ? Hl | ? ? ? Hr| |]; subst.
        -- inversion Hl; subst. rewrite app_comm_cons. constructor; [by apply IH1|done].
        -- change (c :: s) with ([] ++ c :: s).
           constructor; [by apply Matches_nil_nullable|by apply IH2].
      * inversion 1 as [| |? ? s1 s2 H1 H2 | | | |]; subst.
        destruct s1 as [|x s1]; simplify_eq/=.
        -- apply MAltR. by apply IH2.
        -- apply MAltL. constructor; [by apply IH1|done].
    + split.
      * inversion 1; subst. rewrite app_comm_cons. constructor; [by apply IH1|done].
      * inversion 1 as [| |? ? s1 s2 H1 H2 | | | |]; subst.
        destruct s1 as [|x s1]; simplify_eq/=.
        -- apply Matches_nil_nullable in H1. congruence.
        -- constructor; [by apply IH1|done].
  - split; inversion 1; subst;
      first [ apply MAltL; by apply IH1 | apply MAltR; by apply IH2 ].
  - split.
    + inversion 1; subst. rewrite app_comm_cons. constructor; [by apply IH|done].
    + intros (s1 & s2 & -> & H1 & H2)%Matches_star_cons.
      constructor; [by apply IH|done].
Qed.

(** The matcher decides membership. *)
Lemma matches_spec (r : Regex.t) (s : list ascii) :
  matches r s = true ↔ Matches r s.
Proof.
  unfold matches. revert r. induction s as [|c s IH]; intros r; simpl.
  - symmetry. apply Matches_nil_nullable.
  - by rewrite IH, Matches_deriv.
Qed.

Lemma Matches_Eps_iff (s : list ascii) : Matches Eps s ↔ s = [].
Proof. split; [by inversion 1|intros ->; constructor]. Qed.

Lemma Matches_Class_iff (p : ascii → bool) (s : list ascii) :
  Matches (Class p) s ↔ ∃ c, s = [c] ∧ p c = true.
Proof.
  split; [inversion 1; subst; eauto|]. intros (c & -> & Hc). by constructor.
Qed.

Lemma Matches_Cat_iff (r1 r2 : Regex.t) (s : list ascii) :
  Matches (Cat r1 r2) s ↔ ∃ s1 s2, s = s1 ++ s2 ∧ Matches r1 s1 ∧ Matches r2 s2.
Proof.
  split; [inversion 1; subst; eauto|]. intros (s1 & s2 & -> & H1 & H2).
  by constructor.
Qed.

Lemma Matches_Alt_iff (r1 r2 : Regex.t) (s : list ascii) :
  Matches (Alt r1 r2) s ↔ Matches r1 s ∨ Matches r2 s.
Proof.
  split; [inversion 1; subst; eauto|].
  intros [H|H]; [by apply MAltL|by apply MAltR].
Qed.

Lemma Matches_lit_iff (c : ascii) (s : list ascii) :
  Matches (lit c) s ↔ s = [c].
Proof.
  unfold lit. rewrite Matches_Class_iff. split.
  - intros (x & -> & Hx). apply Ascii.eqb_eq in Hx. by subst.
  - intros ->. exists c. split; [done|]. apply Ascii.eqb_refl.
Qed.

Lemma Matches_Star_Class (p : ascii → bool) (s : list ascii) :
  Matches (Star (Class p)) s ↔ Forall (λ c, p c = true) s.
Proof.
  split.
  - intros H. remember (Star (Class p)) as r eqn:Hr.
    induction H; try done.
    injection Hr as ->. inversion H; subst. constructor; auto.
  - induction 1 as [|c s Hc Hs IH]; [constructor|].
    change (c :: s) with ([c] ++ s). constructor; [by constructor|done].
Qed.

Lemma Matches_Plus_Class (p : ascii → bool) (s : list ascii) :
  Matches (Plus (Class p)) s ↔ s ≠ [] ∧ Forall (λ c, p c = true) s.
Proof.
  unfold Plus. rewrite Matches_Cat_iff. split.
  - intros (s1 & s2 & -> & (c & -> & Hc)%Matches_Class_iff & H2%Matches_Star_Class).
    split; [done|]. by constructor.
  - intros [Hne Hall]. destruct Hall as [|c s Hc Hs]; [done|].
    exists [c], s. split; [done|].
    rewrite Matches_Class_iff, Matches_Star_Class. eauto.
Qed.

Lemma Matches_Rep_Class (p : ascii → bool) (n : nat) (s : list ascii) :
  Matches (Rep n (Class p)) s ↔ length s = n ∧ Forall (λ c, p c = true) s.
Proof.
  revert s. induction n as [|n IH]; intros s; simpl.
  - rewrite Matches_Eps_iff. split; [by intros ->|].
    intros [Hlen _]. by apply nil_length_inv.
  - rewrite Matches_Cat_iff. split.
    + intros (s1 & s2 & -> & (c & -> & Hc)%Matches_Class_iff & [Hlen Hall]%IH).
      simpl. split; [by rewrite Hlen|by constructor].
    + intros [Hlen Hall]. destruct Hall as [|c s Hc Hs]; [done|].
      exists [c], s. split; [done|]. rewrite Matches_Class_iff, IH.
      simpl in Hlen. eauto with lia.
Qed.

Lemma Matches_Rep_Opt_Class (p : ascii → bool) (n : nat) (s : list ascii) :
  Matches (Rep n (Opt (Class p))) s ↔ length s ≤ n ∧ Forall (λ c, p c = true) s.
Proof.
  revert s. induction n as [|n IH]; intros s; simpl.
  - rewrite Matches_Eps_iff. split; [by intros ->|].
    intros [Hlen _]. apply nil_length_inv. lia.
  - rewrite Matches_Cat_iff. unfold Opt at 1. split.
    + intros (s1 & s2 & -> & H1 & [Hlen Hall]%IH).
      apply Matches_Alt_iff in H1 as [(c & -> & Hc)%Matches_Class_iff| ->%Matches_Eps_iff].
      * simpl. split; [lia|by constructor].
      * simpl. split; [lia|done].
    + intros [Hlen Hall]. destruct Hall as [|c s Hc Hs].
      * exists [], []. split; [done|]. rewrite Matches_Alt_iff, Matches_Eps_iff, IH.
        simpl. eauto with lia.
      * exists [c], s. split; [done|].
        rewrite Matches_Alt_iff, Matches_Class_iff, IH. simpl in Hlen.
        split; [eauto|]. split; [lia|done].
Qed.

Lemma Matches_Range_Class (p : ascii → bool) (lo hi : nat) (s : list ascii) :
  lo ≤ hi →
  Matches (Range lo hi (Class p)) s ↔
  (lo ≤ length s ≤ hi) ∧ Forall (λ c, p c = true) s.
Proof.
  intros Hle. unfold Range. rewrite Matches_Cat_iff. split.
  - intros (s1 & s2 & -> & [Hl1 Ha1]%Matches_Rep_Class & [Hl2 Ha2]%Matches_Rep_Opt_Class).
    rewrite length_app. split; [lia|]. by apply Forall_app.
  - intros [Hlen Hall]. exists (take lo s), (drop lo s).
    rewrite take_drop, Matches_Rep_Class, Matches_Rep_Opt_Class.
    rewrite length_take, length_drop.
    repeat split; try lia; [by apply Forall_take|by apply Forall_drop].
Qed.

Lemma testAnywhere_spec (r : Regex.t) (s : string) :
  testAnywhere r s = true ↔
  ∃ before part after, JS.chars s = before ++ part ++ after ∧ Matches r part.
Proof.
  unfold testAnywhere. rewrite matches_spec, Matches_Cat_iff. split.
  - intros (s1 & s2 & -> & _ & (s3 & s4 & -> & H3 & _)%Matches_Cat_iff). eauto.
  - intros (s1 & s3 & s4 & -> & H3). exists s1, (s3 ++ s4). split; [done|].
    split; [by apply Matches_Star_Class, Forall_forall|].
    apply Matches_Cat_iff. exists s3, s4. split; [done|]. split; [done|].
    by apply Matches_Star_Class, Forall_forall.
Qed.

End RegexFacts.

(** ** Host names, addresses and bucket names *)

Lemma first_head (s : string) : Helpers.first s = head (JS.chars s).
Proof. by destruct s. Qed.

Lemma substrFromEnd_last (s : string) (l : list ascii) (x : ascii) :
  JS.chars s = l ++ [x] → JS.substrFromEnd 1 s = String x "".
Proof.
  intros Hs. unfold JS.substrFromEnd. rewrite String_length_chars, Hs.
  rewrite length_app. simpl.
  replace (length l + 1 - 1) with (length l) by lia.
  by rewrite drop_app_length.
Qed.

Lemma indexOf_char (c : ascii) (s : string) :
  (JS.indexOf (String c "") s > -1)%Z ↔ c ∈ JS.chars s.
Proof.
  unfold JS.indexOf, JS.chars. induction s as [|a s IH]; simpl.
  - split; [lia|]. by intros ?%elem_of_nil.
  - destruct (ascii_dec c a) as [->|Hne].
    + assert (String.prefix "" s = true) as -> by (by destruct s).
      split; [intros _; by left|lia].
    + destruct (String.index 0 (String c "") s) as [i|].
      * split; [intros _; right; apply IH; lia|lia].
      * split; [lia|]. intros [?|Hin]%elem_of_cons; [done|]. apply IH in Hin. lia.
Qed.

Lemma refused_alphaNumerics (host : string) :
  (∀ c, c ∈ JS.chars host → refused c = false) →
  existsb (λ c, bool_decide (JS.indexOf c host > -1)%Z) Helpers.alphaNumerics = false.
Proof.
  intros Hall. apply not_true_is_false. intros (t & Ht & Hidx)%existsb_exists.
  apply bool_decide_eq_true in Hidx. apply list_elem_of_In in Ht as Ht'.
  unfold Helpers.alphaNumerics, JS.split in Ht'.
  apply list_elem_of_fmap in Ht' as (c & -> & _).
  apply indexOf_char, Hall in Hidx. unfold refused in Hidx.
  apply bool_decide_eq_false in Hidx. by apply Hidx, list_elem_of_In.
Qed.

(** What suffices for [isValidDomain] to accept. *)
Lemma isValidDomain_accepts (host : string) (x z : ascii) (l : list ascii) :
  String.length host ≤ 255 →
  head (JS.chars host) = Some x →
  JS.chars host = l ++ [z] →
  x ∉ ["-"; "_"; "."]%char →
  z ∉ ["-"; "_"; "."]%char →
  (∀ c, c ∈ JS.chars host → refused c = false) →
  Helpers.isValidDomain host = true.
Proof.
  intros Hlen Hx Hz Hxok Hzok Hall. unfold Helpers.isValidDomain.
  rewrite first_head, Hx, (substrFromEnd_last _ _ _ Hz), refused_alphaNumerics by done.
  assert (String.length host ≠ 0).
  { rewrite String_length_chars, Hz, length_app. simpl. lia. }
  repeat (case_bool_decide; simplify_eq/=; try lia; try done);
    exfalso; first [apply Hxok | apply Hzok]; set_solver.
Qed.

Lemma bucketChar_not_refused (c : ascii) :
  Helpers.isBucketChar c = true → refused c = false.
Proof. each_char c; vm_compute; intros H; done. Qed.

Lemma digit_is_bucketChar (c : ascii) :
  Regex.isDigit c = true →
  Helpers.isBucketChar c = true ∧ Helpers.isLowerAlnum c = true.
Proof. each_char c; vm_compute; intros H; done. Qed.

Lemma lowerAlnum_edges (c : ascii) :
  Helpers.isLowerAlnum c = true →
  Helpers.isBucketChar c = true ∧ c ∉ ["-"; "_"; "."]%char.
Proof.
  each_char c; vm_compute; intros H; try done; split; try done;
    intros Hin; repeat (apply elem_of_cons in Hin as [Hin|Hin]; [done|]);
    by apply elem_of_nil in Hin.
Qed.

(** Appends associated to the right. *)
Ltac list_norm :=
  repeat first
    [ rewrite <- app_assoc | rewrite <- app_comm_cons | rewrite app_nil_r ];
  simpl.

Lemma Matches_group_dot (s : list ascii) :
  Regex.Matches (Regex.Cat (Regex.Range 1 3 Regex.digit) (Regex.lit ".")) s ↔
  ∃ g, s = g ++ ["."%char] ∧ digitGroup g.
Proof.
  rewrite Matches_Cat_iff. split.
  - intros (g & d & -> & Hg & ->%Matches_lit_iff).
    apply Matches_Range_Class in Hg; [|lia]. by exists g.
  - intros (g & -> & Hg). exists g, ["."%char]. split; [done|]. split.
    + apply Matches_Range_Class; [lia|done].
    + by apply Matches_lit_iff.
Qed.

Lemma isValidIP_groups (ip : string) :
  Helpers.isValidIP ip = true ↔
  ∃ a b c d,
    JS.chars ip = a ++ "."%char :: b ++ "."%char :: c ++ "."%char :: d ∧
    digitGroup a ∧ digitGroup b ∧ digitGroup c ∧ digitGroup d.
Proof.
  unfold Helpers.isValidIP, Regex.testWhole, Helpers.ipv4Regex.
  rewrite matches_spec, Matches_Cat_iff.
  change (Regex.Rep 3 ?x)
    with (Regex.Cat x (Regex.Cat x (Regex.Cat x Regex.Eps))).
  split.
  - intros (s1 & d & -> & H3 & Hd).
    apply Matches_Cat_iff in H3 as (? & s2 & -> & (a & -> & Ha)%Matches_group_dot & H2).
    apply Matches_Cat_iff in H2 as (? & s3 & -> & (b & -> & Hb)%Matches_group_dot & H1).
    apply Matches_Cat_iff in H1 as (? & ? & -> & (c & -> & Hc)%Matches_group_dot
                                      & ->%Matches_Eps_iff).
    apply Matches_Range_Class in Hd; [|lia].
    exists a, b, c, d. split; [|done].
    by list_norm.
  - intros (a & b & c & d & Hs & Ha & Hb & Hc & Hd).
    exists (a ++ "."%char :: b ++ "."%char :: c ++ ["."%char]), d.
    split; [rewrite Hs; by list_norm|].
    split; [|by apply Matches_Range_Class; [lia|]].
    apply Matches_Cat_iff.
    exists (a ++ ["."%char]), (b ++ "."%char :: c ++ ["."%char]).
    split; [by list_norm|].
    split; [apply Matches_group_dot; by exists a|].
    apply Matches_Cat_iff. exists (b ++ ["."%char]), (c ++ ["."%char]).
    split; [by list_norm|].
    split; [apply Matches_group_dot; by exists b|].
    apply Matches_Cat_iff. exists (c ++ ["."%char]), [].
    split; [by list_norm|].
    split; [apply Matches_group_dot; by exists c|constructor].
Qed.

Lemma digitGroup_chars (g : list ascii) :
  digitGroup g →
  (∃ x g', g = x :: g' ∧ Regex.isDigit x = true) ∧
  (∃ g' z, g = g' ++ [z] ∧ Regex.isDigit z = true).
Proof.
  intros [Hlen Hall]. split.
  - destruct Hall as [|x g' Hx _]; [simpl in Hlen; lia|]. eauto.
  - destruct g as [|x g'] using rev_ind; [simpl in Hlen; lia|].
    apply Forall_app in Hall as [_ Hz]. inversion Hz; subst. eauto.
Qed.

Lemma isValidIP_chars (ip : string) :
  Helpers.isValidIP ip = true →
  (7 ≤ String.length ip ≤ 15) ∧
  (∃ x, head (JS.chars ip) = Some x ∧ Regex.isDigit x = true) ∧
  (∃ l z, JS.chars ip = l ++ [z] ∧ Regex.isDigit z = true) ∧
  (∀ c, c ∈ JS.chars ip → Regex.isDigit c = true ∨ c = "."%char).
Proof.
  intros (a & b & c & d & Hs & Ha & Hb & Hc & Hd)%isValidIP_groups.
  rewrite String_length_chars, Hs. repeat split.
  - destruct Ha as [? _], Hb as [? _], Hc as [? _], Hd as [? _].
    rewrite !length_app; simpl; rewrite !length_app; simpl;
      rewrite !length_app; simpl. lia.
  - destruct Ha as [? _], Hb as [? _], Hc as [? _], Hd as [? _].
    rewrite !length_app; simpl; rewrite !length_app; simpl;
      rewrite !length_app; simpl. lia.
  - apply digitGroup_chars in Ha as [(x & a' & -> & Hx) _]. by exists x.
  - apply digitGroup_chars in Hd as [_ (d' & z & -> & Hz)].
    exists (a ++ "."%char :: b ++ "."%char :: c ++ "."%char :: d'), z.
    split; [by list_norm|done].
  - intros x Hx. destruct Ha as [_ Ha], Hb as [_ Hb], Hc as [_ Hc], Hd as [_ Hd].
    rewrite Forall_forall in Ha, Hb, Hc, Hd.
    repeat (apply elem_of_app in Hx as [Hx|Hx]; [left; auto|];
            apply elem_of_cons in Hx as [->|Hx]; [by right|]).
    left. auto.
Qed.

Lemma isValidIP_isValidDomain (ip : string) :
  Helpers.isValidIP ip = true → Helpers.isValidDomain ip = true.
Proof.
  intros ([Hlo Hhi] & (x & Hx & Hdx) & (l & z & Hz & Hdz) & Hall)%isValidIP_chars.
  apply (isValidDomain_accepts ip x z l); try done; try lia.
  - by apply digit_is_bucketChar, proj2, lowerAlnum_edges in Hdx as [_ ?].
  - by apply digit_is_bucketChar, proj2, lowerAlnum_edges in Hdz as [_ ?].
  - intros c [Hc| ->]%Hall; apply bucketChar_not_refused; [|done].
    by apply digit_is_bucketChar in Hc as [? _].
Qed.

(** X19: [isValidIP] accepts exactly the texts made of four groups of one
    to three decimal digits separated by dots, with no check of the range of
    a group; an accepted text has 7 to 15 characters, all of them digits and
    dots. *)
Theorem isValidIP_shape (ip : string) :
  (Helpers.isValidIP ip = true ↔
   ∃ a b c d,
     JS.chars ip = a ++ "."%char :: b ++ "."%char :: c ++ "."%char :: d ∧
     digitGroup a ∧ digitGroup b ∧ digitGroup c ∧ digitGroup d) ∧
  (Helpers.isValidIP ip = true →
   (7 ≤ String.length ip ≤ 15) ∧
   ∀ c, c ∈ JS.chars ip → Regex.isDigit c = true ∨ c = "."%char).
Proof.
  split.
  - apply isValidIP_groups.
  - intros (Hlen & _ & _ & Hall)%isValidIP_chars. done.
Qed.

(** X20: [isValidEndpoint] is [isValidDomain]: every text that [isValidIP]
    accepts is accepted by [isValidDomain] already, so that the test of the
    address never changes the result. *)
Theorem isValidEndpoint_is_isValidDomain (endpoint : string) :
  Helpers.isValidEndpoint endpoint = Helpers.isValidDomain endpoint.
Proof.
  unfold Helpers.isValidEndpoint.
  destruct (Helpers.isValidDomain endpoint) eqn:Hdomain; [done|]. simpl.
  destruct (Helpers.isValidIP endpoint) eqn:Hip; [|done].
  apply isValidIP_isValidDomain in Hip. congruence.
Qed.

Lemma bucketRegex_spec (bucket : string) :
  Regex.testWhole Helpers.bucketRegex bucket = true ↔
  ∃ a m z,
    JS.chars bucket = a :: m ++ [z] ∧
    Helpers.isLowerAlnum a = true ∧
    m ≠ [] ∧ Forall (λ c, Helpers.isBucketChar c = true) m ∧
    Helpers.isLowerAlnum z = true.
Proof.
  unfold Regex.testWhole, Helpers.bucketRegex.
  rewrite matches_spec, Matches_Cat_iff. split.
  - intros (? & rest & -> & (a & -> & Ha)%Matches_Class_iff & Hrest).
    apply Matches_Cat_iff in Hrest
      as (m & ? & -> & [Hne Hm]%Matches_Plus_Class & (z & -> & Hz)%Matches_Class_iff).
    by exists a, m, z.
  - intros (a & m & z & -> & Ha & Hne & Hm & Hz).
    exists [a], (m ++ [z]). split; [done|].
    split; [apply Matches_Class_iff; eauto|].
    apply Matches_Cat_iff. exists m, [z]. split; [done|].
    split; [by apply Matches_Plus_Class|apply Matches_Class_iff; eauto].
Qed.

Lemma isValidBucketName_inv (bucket : string) :
  Helpers.isValidBucketName bucket = true →
  (3 ≤ String.length bucket ≤ 63) ∧
  JS.indexOf ".." bucket = (-1)%Z ∧
  Regex.testAnywhere Helpers.ipStyleRegex bucket = false ∧
  Regex.testWhole Helpers.bucketRegex bucket = true.
Proof.
  unfold Helpers.isValidBucketName.
  repeat case_bool_decide; simpl; try done.
  destruct (Regex.testAnywhere _ _); [done|].
  destruct (Regex.testWhole _ _); [|done]. intros _.
  repeat split; try lia.
  unfold JS.indexOf in *. destruct (String.index 0 ".." bucket); [lia|done].
Qed.

(** X21: a name that [isValidBucketName] accepts has 3 to 63 characters,
    all of them lower-case letters, digits, dots or hyphens; it begins and
    ends with a letter or a digit and holds no two dots in a row. *)
Theorem isValidBucketName_shape (bucket : string) :
  Helpers.isValidBucketName bucket = true →
  (3 ≤ String.length bucket ≤ 63) ∧
  (∀ c, c ∈ JS.chars bucket → Helpers.isBucketChar c = true) ∧
  (∃ a, head (JS.chars bucket) = Some a ∧ Helpers.isLowerAlnum a = true) ∧
  (∃ z, last (JS.chars bucket) = Some z ∧ Helpers.isLowerAlnum z = true) ∧
  JS.indexOf ".." bucket = (-1)%Z.
Proof.
  intros (Hlen & Hdots & _ & (a & m & z & Hs & Ha & _ & Hm & Hz)%bucketRegex_spec)
    %isValidBucketName_inv.
  split; [done|]. rewrite Hs. repeat split; try done.
  - intros c [->|[Hc|Hc]%elem_of_app]%elem_of_cons.
    + by apply lowerAlnum_edges in Ha as [? _].
    + rewrite Forall_forall in Hm. auto.
    + apply list_elem_of_singleton in Hc as ->.
      by apply lowerAlnum_edges in Hz as [? _].
  - by exists a.
  - exists z. split; [|done]. by rewrite app_comm_cons, last_snoc.
Qed.

Lemma isValidBucketName_shape_witness :
  (3 ≤ String.length "my-bucket.name" ≤ 63) ∧
  (∀ c, c ∈ JS.chars "my-bucket.name" → Helpers.isBucketChar c = true) ∧
  (∃ a, head (JS.chars "my-bucket.name") = Some a ∧ Helpers.isLowerAlnum a = true) ∧
  (∃ z, last (JS.chars "my-bucket.name") = Some z ∧ Helpers.isLowerAlnum z = true) ∧
  JS.indexOf ".." "my-bucket.name" = (-1)%Z.
Proof. apply (isValidBucketName_shape "my-bucket.name"). reflexivity. Defined.

(** X22: every name that [isValidBucketName] accepts is accepted by
    [isValidDomain], and so by [isValidEndpoint]. *)
Theorem valid_bucket_is_valid_domain (bucket : string) :
  Helpers.isValidBucketName bucket = true →
  Helpers.isValidDomain bucket = true ∧ Helpers.isValidEndpoint bucket = true.
Proof.
  intros (Hlen & _ & _ & (a & m & z & Hs & Ha & _ & Hm & Hz)%bucketRegex_spec)
    %isValidBucketName_inv.
  assert (Hdomain : Helpers.isValidDomain bucket = true).
  { apply (isValidDomain_accepts bucket a z (a :: m)); try done; try lia.
    - by rewrite Hs.
    - by apply lowerAlnum_edges in Ha as [_ ?].
    - by apply lowerAlnum_edges in Hz as [_ ?].
    - intros c Hc. apply bucketChar_not_refused. rewrite Hs in Hc.
      apply elem_of_cons in Hc as [->|[Hc|Hc]%elem_of_app].
      + by apply lowerAlnum_edges in Ha as [? _].
      + rewrite Forall_forall in Hm. auto.
      + apply list_elem_of_singleton in Hc as ->.
        by apply lowerAlnum_edges in Hz as [? _]. }
  split; [done|]. unfold Helpers.isValidEndpoint. by rewrite Hdomain.
Qed.

Lemma valid_bucket_is_valid_domain_witness :
  Helpers.isValidDomain "my-bucket.name" = true ∧
  Helpers.isValidEndpoint "my-bucket.name" = true.
Proof. apply (valid_bucket_is_valid_domain "my-bucket.name"). reflexivity. Defined.

Lemma digitGroup_Plus (g : list ascii) :
  digitGroup g → Regex.Matches (Regex.Plus Regex.digit) g.
Proof.
  intros [Hlen Hall]. apply Matches_Plus_Class. split; [|done].
  intros ->. simpl in Hlen. lia.
Qed.

(** X23: no text is both an address for [isValidIP] and a bucket name for
    [isValidBucketName]. *)
Theorem valid_IP_is_no_bucket (s : string) :
  Helpers.isValidIP s = true → Helpers.isValidBucketName s = false.
Proof.
  intros (a & b & c & d & Hs & Ha & Hb & Hc & Hd)%isValidIP_groups.
  assert (Hip : Regex.testAnywhere Helpers.ipStyleRegex s = true).
  { apply testAnywhere_spec. exists [], (JS.chars s), [].
    split; [by rewrite app_nil_r|]. rewrite Hs. unfold Helpers.ipStyleRegex.
    constructor; [by apply digitGroup_Plus|].
    change ("."%char :: ?x) with (["."%char] ++ x).
    constructor; [by apply Matches_lit_iff|].
    constructor; [by apply digitGroup_Plus|].
    change ("."%char :: ?x) with (["."%char] ++ x).
    constructor; [by apply Matches_lit_iff|].
    constructor; [by apply digitGroup_Plus|].
    change ("."%char :: ?x) with (["."%char] ++ x).
    constructor; [by apply Matches_lit_iff|].
    by apply digitGroup_Plus. }
  unfold Helpers.isValidBucketName. rewrite Hip.
  by repeat (case_bool_decide; simpl).
Qed.

Lemma valid_IP_is_no_bucket_witness :
  Helpers.isValidBucketName "192.168.1.1" = false.
Proof. apply (valid_IP_is_no_bucket "192.168.1.1"). reflexivity. Defined.

(** ** Metadata headers *)

Lemma toLowerCase_cons (c : ascii) (s : string) :
  JS.toLowerCase (String c s) = String (JS.lowerChar c) (JS.toLowerCase s).
Proof. reflexivity. Qed.

Lemma toLowerCase_app (s t : string) :
  JS.toLowerCase (s +:+ t) = JS.toLowerCase s +:+ JS.toLowerCase t.
Proof.
  induction s as [|c s IH]; [done|].
  by rewrite String_app_cons, !toLowerCase_cons, String_app_cons, IH.
Qed.

Lemma startsWith_app (s t : string) : JS.startsWith s (s +:+ t) = true.
Proof.
  unfold JS.startsWith. induction s as [|c s IH]; [by destruct t|].
  rewrite String_app_cons. simpl. by destruct (ascii_dec c c).
Qed.

Lemma prefixed_isAmzHeader (key : string) :
  Helpers.isAmzHeader ("X-Amz-Meta-" +:+ key) = true.
Proof.
  unfold Helpers.isAmzHeader. rewrite toLowerCase_app.
  change (JS.toLowerCase "X-Amz-Meta-") with "x-amz-meta-".
  by rewrite startsWith_app.
Qed.

Lemma sliceFrom_prefixed (key : string) :
  JS.sliceFrom 11 ("X-Amz-Meta-" +:+ key) = key.
Proof.
  unfold JS.sliceFrom. rewrite chars_app. simpl. apply str_chars.
Qed.

Lemma prefixed_inj (a b : string) :
  "X-Amz-Meta-" +:+ a = "X-Amz-Meta-" +:+ b → a = b.
Proof. intros H. rewrite <- (sliceFrom_prefixed a), H. apply sliceFrom_prefixed. Qed.

Lemma isHeader_prefixed (key : string) : isHeader ("X-Amz-Meta-" +:+ key) = true.
Proof. unfold isHeader. by rewrite prefixed_isAmzHeader. Qed.

Lemma setProp_prefixed {V} (key : string) (v : V) (o : gmap string V) :
  JS.setProp ("X-Amz-Meta-" +:+ key) v o = <["X-Amz-Meta-" +:+ key := v]> o.
Proof.
  unfold JS.setProp. case_bool_decide as H; [|done].
  pose proof (isHeader_prefixed key) as Hh. rewrite H in Hh. done.
Qed.

Lemma isHeader_split (key : string) :
  negb (Helpers.isAmzHeader key) && negb (Helpers.isSupportedHeader key)
  && negb (Helpers.isStorageclassHeader key) = negb (isHeader key).
Proof.
  unfold isHeader.
  by destruct (Helpers.isAmzHeader key), (Helpers.isSupportedHeader key),
    (Helpers.isStorageclassHeader key).
Qed.

Lemma isHeader_order (key : string) :
  Helpers.isSupportedHeader key || Helpers.isStorageclassHeader key
  || Helpers.isAmzHeader key = isHeader key.
Proof.
  unfold isHeader.
  by destruct (Helpers.isAmzHeader key), (Helpers.isSupportedHeader key),
    (Helpers.isStorageclassHeader key).
Qed.

Section MetadataFacts.

Context {V : Type} (inherited : string → V).

Local Abbreviation step := (Helpers.prependXAMZMeta_step inherited).

Lemma prepend_step_header (new : gmap string V) (key : string) :
  isHeader key = true → step new key = new.
Proof.
  intros H. unfold Helpers.prependXAMZMeta_step. by rewrite isHeader_split, H.
Qed.

Lemma prepend_step_other (new : gmap string V) (key : string) (v : V) :
  isHeader key = false → new !! key = Some v →
  step new key = delete key (<["X-Amz-Meta-" +:+ key := v]> new).
Proof.
  intros H Hv. unfold Helpers.prependXAMZMeta_step.
  rewrite isHeader_split, H. simpl.
  rewrite setProp_prefixed. unfold JS.getProp, JS.deleteProp. by rewrite Hv.
Qed.

Lemma prepend_lookup (keys : list string) (m : gmap string V) :
  NoDup keys → (∀ k, k ∈ keys → is_Some (m !! k)) →
  ∀ j v,
    foldl step m keys !! j = Some v ↔
      (∃ k, k ∈ keys ∧ isHeader k = false ∧ j = "X-Amz-Meta-" +:+ k
            ∧ m !! k = Some v)
      ∨ ((isHeader j = true ∨ j ∉ keys) ∧ m !! j = Some v
         ∧ ∀ k, k ∈ keys → isHeader k = false → j ≠ "X-Amz-Meta-" +:+ k).
Proof.
  induction keys as [|x keys IH] using rev_ind; intros Hnd Hin j v.
  - simpl. split.
    + intros Hj. right. split; [right; apply not_elem_of_nil|].
      split; [done|]. by intros k ?%elem_of_nil.
    + intros [(k & []%elem_of_nil & _)|(_ & Hj & _)]. done.
  - apply NoDup_app in Hnd as (Hnd & Hx & _).
    assert (Hl : ∀ k, k ∈ keys → k ∈ keys ++ [x])
      by (intros k Hk; apply elem_of_app; by left).
    assert (Hr : x ∈ keys ++ [x])
      by (apply elem_of_app; right; by apply list_elem_of_singleton).
    assert (Hx' : x ∉ keys)
      by (intros Hk; apply (Hx x Hk); by apply list_elem_of_singleton).
    assert (Hout : ∀ i, i ∉ keys → x ≠ i → i ∉ keys ++ [x]).
    { intros i Hi Hne [?|?%list_elem_of_singleton]%elem_of_app; by subst. }
    assert (Hout' : ∀ i, i ∉ keys ++ [x] → i ∉ keys)
      by (intros i Hi Hk; by apply Hi, Hl).
    specialize (IH Hnd (λ k Hk, Hin k (Hl k Hk))).
    rewrite foldl_app. simpl.
    destruct (isHeader x) eqn:Hhx.
    + rewrite prepend_step_header by done. rewrite IH. split.
      * intros [(k & Hk & Hhk & -> & Hv)|(Hj & Hv & Hno)].
        -- left. exists k. auto.
        -- right. split; [|split; [done|]].
           ++ destruct Hj as [Hj|Hj]; [by left|].
              destruct (decide (x = j)) as [<-|Hne]; [by left|right; auto].
           ++ intros k [Hk| ->%list_elem_of_singleton]%elem_of_app Hhk;
                [auto|congruence].
      * intros [(k & [Hk| ->%list_elem_of_singleton]%elem_of_app & Hhk & -> & Hv)
               |(Hj & Hv & Hno)].
        -- left. eauto.
        -- congruence.
        -- right. split; [|split; [done|]].
           ++ destruct Hj as [Hj|Hj]; [by left|right; auto].
           ++ intros k Hk. apply Hno. auto.
    + destruct (Hin x Hr) as [vx Hvx].
      assert (Hnew : foldl step m keys !! x = Some vx).
      { apply IH. right. split; [by right|]. split; [done|].
        intros k _ _ ->. by rewrite isHeader_prefixed in Hhx. }
      rewrite (prepend_step_other _ _ vx) by done.
      rewrite lookup_delete_Some, lookup_insert_Some, IH. split.
      * intros [Hjx [[<- <-]|[Hjp [(k & Hk & Hhk & -> & Hv)|(Hj & Hv & Hno)]]]].
        -- left. exists x. auto.
        -- left. exists k. auto.
        -- right. split; [|split; [done|]].
           ++ destruct Hj as [Hj|Hj]; [by left|right; auto].
           ++ intros k [Hk| ->%list_elem_of_singleton]%elem_of_app Hhk;
                [auto|congruence].
      * intros [(k & [Hk| ->%list_elem_of_singleton]%elem_of_app & Hhk & -> & Hv)
               |(Hj & Hv & Hno)].
        -- split; [intros Heq; rewrite Heq in Hhx; by rewrite isHeader_prefixed in Hhx|].
           destruct (decide ("X-Amz-Meta-" +:+ x = "X-Amz-Meta-" +:+ k)) as [Heq|Hne].
           ++ apply prefixed_inj in Heq as ->. done.
           ++ right. split; [done|]. left. eauto.
        -- split; [intros Heq; rewrite Heq in Hhx; by rewrite isHeader_prefixed in Hhx|].
           left. split; [done|congruence].
        -- assert (x ≠ j).
           { intros <-. destruct Hj as [Hj|Hj]; [congruence|by apply Hj]. }
           split; [done|]. right. split; [apply not_eq_sym, Hno; auto|].
           right. split; [|split; [done|]].
           ++ destruct Hj as [Hj|Hj]; [by left|right; auto].
           ++ intros k Hk. apply Hno. auto.
Qed.

Local Abbreviation prependXAMZMeta := (Helpers.prependXAMZMeta inherited).
Local Abbreviation extractMetadata := (Helpers.extractMetadata inherited).

Lemma prependXAMZMeta_lookup (keys : list string) (m : gmap string V) :
  JS.enumerates keys m →
  ∀ j v,
    prependXAMZMeta keys m !! j = Some v ↔
      (∃ k, isHeader k = false ∧ j = "X-Amz-Meta-" +:+ k ∧ m !! k = Some v)
      ∨ (isHeader j = true ∧ m !! j = Some v
         ∧ ∀ k, isHeader k = false → is_Some (m !! k) → j ≠ "X-Amz-Meta-" +:+ k).
Proof.
  intros [Hnd Hkeys] j v. unfold Helpers.prependXAMZMeta.
  rewrite prepend_lookup; [|done|by intros k ?%Hkeys]. split.
  - intros [(k & Hk & Hhk & -> & Hv)|(Hj & Hv & Hno)]; [left; eauto|].
    right. split; [|split; [done|]].
    + destruct Hj as [Hj|Hj]; [done|]. destruct Hj. apply Hkeys. eauto.
    + intros k Hhk Hk. apply Hno; [by apply Hkeys|done].
  - intros [(k & Hhk & -> & Hv)|(Hj & Hv & Hno)].
    + left. exists k. split; [apply Hkeys; eauto|done].
    + right. split; [by left|]. split; [done|].
      intros k Hk Hhk. apply Hno; [done|by apply Hkeys].
Qed.

Lemma extract_lookup (M : gmap string V) (keys : list string) :
  (∀ key, key ∈ keys →
     ∃ k, key = "X-Amz-Meta-" +:+ k ∧ k ≠ "__proto__" ∧ is_Some (M !! key)) →
  ∀ i v,
    foldl (Helpers.extractMetadata_step inherited M) ∅ keys !! i = Some v ↔
    "X-Amz-Meta-" +:+ i ∈ keys ∧ M !! ("X-Amz-Meta-" +:+ i) = Some v.
Proof.
  induction keys as [|x keys IH] using rev_ind; intros Hkeys i v.
  - simpl. rewrite lookup_empty. split; [done|]. by intros [?%elem_of_nil _].
  - assert (Hl : ∀ k, k ∈ keys → k ∈ keys ++ [x])
      by (intros k Hk; apply elem_of_app; by left).
    assert (Hr : x ∈ keys ++ [x])
      by (apply elem_of_app; right; by apply list_elem_of_singleton).
    specialize (IH (λ key Hk, Hkeys key (Hl key Hk))).
    destruct (Hkeys x Hr) as (k & -> & Hproto & [vk Hvk]).
    rewrite foldl_app. simpl. unfold Helpers.extractMetadata_step at 1.
    rewrite isHeader_order, isHeader_prefixed, toLowerCase_app.
    change (JS.toLowerCase "X-Amz-Meta-") with "x-amz-meta-".
    rewrite startsWith_app, sliceFrom_prefixed.
    unfold JS.setProp, JS.getProp. rewrite bool_decide_eq_false_2 by done.
    rewrite Hvk. simpl. rewrite lookup_insert_Some, IH. split.
    + intros [[<- <-]|[Hne [Hi Hv]]]; [done|]. split; [auto|done].
    + intros [[Hi| ->%list_elem_of_singleton%prefixed_inj]%elem_of_app Hv].
      * destruct (decide (k = i)) as [->|Hne]; [left|right; done].
        split; [done|congruence].
      * left. split; [done|congruence].
Qed.

End MetadataFacts.

Lemma enumerates_empty {V} : JS.enumerates [] (∅ : gmap string V).
Proof.
  split; [constructor|]. intros key. rewrite lookup_empty. split.
  - by intros ?%elem_of_nil.
  - by intros [? ?].
Qed.

Lemma enumerates_insert {V} (keys : list string) (o : gmap string V)
    (key : string) (v : V) :
  JS.enumerates keys o → o !! key = None →
  JS.enumerates (key :: keys) (<[key := v]> o).
Proof.
  intros [Hnd Hkeys] Hnone. split.
  - constructor; [|done]. intros [? ?]%Hkeys. congruence.
  - intros k. rewrite elem_of_cons, lookup_insert_is_Some, Hkeys.
    destruct (decide (key = k)) as [->|Hne]; [by split; left|].
    split; (intros [?|?]; [by subst|]); [right; by split|right; tauto].
Qed.

Lemma userMetadata_keys : JS.enumerates ["color"; "Content-Type"] userMetadata.
Proof. by repeat apply enumerates_insert; [apply enumerates_empty|..]. Qed.

Lemma userMetadata_keys_reversed :
  JS.enumerates ["Content-Type"; "color"] userMetadata.
Proof.
  replace userMetadata
    with (<["Content-Type" := Some "text/plain"]> (<["color" := Some "blue"]> ∅)
            : gmap string (option string))
    by (by vm_compute).
  by repeat apply enumerates_insert; [apply enumerates_empty|..].
Qed.

Lemma userMetadata_prepended_keys :
  JS.enumerates ["Content-Type"; "X-Amz-Meta-color"]
    (Helpers.prependXAMZMeta nothingInherited ["color"; "Content-Type"] userMetadata).
Proof.
  replace (Helpers.prependXAMZMeta _ _ _)
    with (<["Content-Type" := Some "text/plain"]>
            (<["X-Amz-Meta-color" := Some "blue"]> ∅) : gmap string (option string))
    by (by vm_compute).
  by repeat apply enumerates_insert; [apply enumerates_empty|..].
Qed.

Lemma plainMetadata_keys : JS.enumerates ["color"; "size"] plainMetadata.
Proof. by repeat apply enumerates_insert; [apply enumerates_empty|..]. Qed.

Lemma plainMetadata_prepended_keys :
  JS.enumerates ["X-Amz-Meta-color"; "X-Amz-Meta-size"]
    (Helpers.prependXAMZMeta nothingInherited ["color"; "size"] plainMetadata).
Proof.
  replace (Helpers.prependXAMZMeta _ _ _)
    with (<["X-Amz-Meta-color" := Some "blue"]>
            (<["X-Amz-Meta-size" := Some "large"]> ∅) : gmap string (option string))
    by (by vm_compute).
  by repeat apply enumerates_insert; [apply enumerates_empty|..].
Qed.

Lemma plainMetadata_no_header (key : string) :
  is_Some (plainMetadata !! key) → isHeader key = false.
Proof.
  unfold plainMetadata. rewrite !lookup_insert_is_Some, lookup_empty.
  intros [<-|[_ [<-|[_ [? ?]]]]]; done.
Qed.

(** X24: the result of [prependXAMZMeta] does not depend on the order in
    which the loop visits the keys of the metadata. *)
Theorem prependXAMZMeta_order_irrelevant {V} (inherited : string → V)
    (keys keys' : list string) (metaData : gmap string V) :
  metaData !! "__proto__" = None →
  JS.enumerates keys metaData → JS.enumerates keys' metaData →
  Helpers.prependXAMZMeta inherited keys metaData
  = Helpers.prependXAMZMeta inherited keys' metaData.
Proof.
  intros _ Hkeys Hkeys'. apply map_eq. intros j. apply option_eq. intros v.
  by rewrite !prependXAMZMeta_lookup.
Qed.

Lemma prependXAMZMeta_order_irrelevant_witness :
  Helpers.prependXAMZMeta nothingInherited ["color"; "Content-Type"] userMetadata
  = Helpers.prependXAMZMeta nothingInherited ["Content-Type"; "color"] userMetadata.
Proof.
  apply prependXAMZMeta_order_irrelevant.
  - reflexivity.
  - apply userMetadata_keys.
  - apply userMetadata_keys_reversed.
Defined.

(** X25: every key of the result of [prependXAMZMeta] is a header key;
    a value under a key that is no header is found under that key with
    [X-Amz-Meta-] before it; and every value of the result is a value of the
    metadata, under the same key or under the key without the prefix. *)
Theorem prependXAMZMeta_result {V} (inherited : string → V)
    (keys : list string) (metaData : gmap string V) :
  metaData !! "__proto__" = None →
  JS.enumerates keys metaData →
  let newMetadata := Helpers.prependXAMZMeta inherited keys metaData in
  (∀ key, is_Some (newMetadata !! key) → isHeader key = true) ∧
  (∀ key v, metaData !! key = Some v → isHeader key = false →
            newMetadata !! ("X-Amz-Meta-" +:+ key) = Some v) ∧
  (∀ key v, newMetadata !! key = Some v →
            ∃ key', prefixed key' = key ∧ metaData !! key' = Some v).
Proof.
  intros _ Hkeys newMetadata. split; [|split].
  - intros key [v Hv]. apply (prependXAMZMeta_lookup inherited) in Hv; [|done].
    destruct Hv as [(k & _ & -> & _)|(Hh & _)]; [apply isHeader_prefixed|done].
  - intros key v Hv Hh. apply prependXAMZMeta_lookup; [done|]. left. eauto.
  - intros key v Hv. apply (prependXAMZMeta_lookup inherited) in Hv; [|done].
    unfold prefixed.
    destruct Hv as [(k & Hh & -> & Hv)|(Hh & Hv & _)].
    + exists k. by rewrite Hh.
    + exists key. by rewrite Hh.
Qed.

Lemma prependXAMZMeta_result_witness :
  let newMetadata :=
    Helpers.prependXAMZMeta nothingInherited ["color"; "Content-Type"] userMetadata in
  (∀ key, is_Some (newMetadata !! key) → isHeader key = true) ∧
  (∀ key v, userMetadata !! key = Some v → isHeader key = false →
            newMetadata !! ("X-Amz-Meta-" +:+ key) = Some v) ∧
  (∀ key v, newMetadata !! key = Some v →
            ∃ key', prefixed key' = key ∧ userMetadata !! key' = Some v).
Proof.
  apply (prependXAMZMeta_result nothingInherited).
  - reflexivity.
  - apply userMetadata_keys.
Defined.

(** X26: [prependXAMZMeta] changes nothing in what it has returned. *)
Theorem prependXAMZMeta_idempotent {V} (inherited : string → V)
    (keys keys' : list string) (metaData : gmap string V) :
  metaData !! "__proto__" = None →
  JS.enumerates keys metaData →
  JS.enumerates keys' (Helpers.prependXAMZMeta inherited keys metaData) →
  Helpers.prependXAMZMeta inherited keys'
    (Helpers.prependXAMZMeta inherited keys metaData)
  = Helpers.prependXAMZMeta inherited keys metaData.
Proof.
  intros _ Hkeys [_ Hkeys'].
  assert (Hall : Forall (λ key, isHeader key = true) keys').
  { apply Forall_forall. intros key [v Hv]%Hkeys'.
    apply (prependXAMZMeta_lookup inherited) in Hv; [|done].
    destruct Hv as [(k & _ & -> & _)|(Hh & _)]; [apply isHeader_prefixed|done]. }
  generalize (Helpers.prependXAMZMeta inherited keys metaData). intros o.
  unfold Helpers.prependXAMZMeta. clear Hkeys'.
  induction Hall as [|key keys' Hh _ IH]; [done|].
  simpl. by rewrite prepend_step_header.
Qed.

Lemma prependXAMZMeta_idempotent_witness :
  Helpers.prependXAMZMeta nothingInherited ["Content-Type"; "X-Amz-Meta-color"]
    (Helpers.prependXAMZMeta nothingInherited ["color"; "Content-Type"] userMetadata)
  = Helpers.prependXAMZMeta nothingInherited ["color"; "Content-Type"] userMetadata.
Proof.
  apply prependXAMZMeta_idempotent.
  - reflexivity.
  - apply userMetadata_keys.
  - apply userMetadata_prepended_keys.
Defined.

(** X27: on metadata none of whose keys is a header key,
    [extractMetadata] gives back what [prependXAMZMeta] was given. *)
Theorem extractMetadata_undoes_prependXAMZMeta {V} (inherited : string → V)
    (keys keys' : list string) (metaData : gmap string V) :
  metaData !! "__proto__" = None →
  (∀ key, is_Some (metaData !! key) → isHeader key = false) →
  JS.enumerates keys metaData →
  JS.enumerates keys' (Helpers.prependXAMZMeta inherited keys metaData) →
  Helpers.extractMetadata inherited keys'
    (Helpers.prependXAMZMeta inherited keys metaData)
  = metaData.
Proof.
  intros Hproto Hplain Hkeys [_ Hkeys'].
  assert (Himage : ∀ j v,
    Helpers.prependXAMZMeta inherited keys metaData !! j = Some v ↔
    ∃ k, j = "X-Amz-Meta-" +:+ k ∧ metaData !! k = Some v).
  { intros j v. rewrite prependXAMZMeta_lookup by done. split.
    - intros [(k & _ & -> & Hv)|(Hh & Hv & _)]; [eauto|].
      rewrite Hplain in Hh; [done|eauto].
    - intros (k & -> & Hv). left. exists k. split; [apply Hplain; eauto|done]. }
  apply map_eq. intros i. apply option_eq. intros v.
  unfold Helpers.extractMetadata. rewrite extract_lookup.
  - rewrite Hkeys', Himage. split.
    + by intros [_ (k & ->%prefixed_inj & Hv)].
    + intros Hv. split; [|eauto]. exists v. apply Himage. eauto.
  - intros key [w Hw]%Hkeys'. pose proof Hw as (k & -> & Hk)%Himage.
    exists k. split; [done|]. split; [congruence|eauto].
Qed.

Lemma extractMetadata_undoes_prependXAMZMeta_witness :
  Helpers.extractMetadata nothingInherited ["X-Amz-Meta-color"; "X-Amz-Meta-size"]
    (Helpers.prependXAMZMeta nothingInherited ["color"; "size"] plainMetadata)
  = plainMetadata.
Proof.
  apply extractMetadata_undoes_prependXAMZMeta.
  - reflexivity.
  - apply plainMetadata_no_header.
  - apply plainMetadata_keys.
  - apply plainMetadata_prepended_keys.
Defined.

(** ** Dates *)

Lemma substr_split (n a b : nat) (s : string) :
  JS.substr n (a + b) s = JS.substr n a s +:+ JS.substr (n + a) b s.
Proof.
  unfold JS.substr. revert n a. induction s as [|c s IH]; intros n a.
  - destruct n, a, b; reflexivity.
  - destruct n as [|n]; simpl.
    + destruct a as [|a]; simpl; [done|].
      rewrite String_app_cons. f_equal. apply (IH 0 a).
    + apply IH.
Qed.

Ltac explode s :=
  repeat (let c := fresh "c" in destruct s as [|c s]; simpl in *; try lia).

(** X28: when the text of the date has the form of [toISOString], a year of
    four characters, then month, day, hour, minute and second of two
    characters each with their separators, [makeDateLong] is these parts in
    a row with [T] before the hour and [Z] at the end, [makeDateShort] is
    year, month and day, and [getScope] begins with them. *)
Theorem date_stamps (now date : JS.Date) (region Y M D h m s rest : string) :
  String.length Y = 4 → String.length M = 2 → String.length D = 2 →
  String.length h = 2 → String.length m = 2 → String.length s = 2 →
  JS.toISOString date
  = Y +:+ "-" +:+ M +:+ "-" +:+ D +:+ "T" +:+ h +:+ ":" +:+ m +:+ ":" +:+ s +:+ rest →
  Helpers.makeDateLong now (Some date) = Y +:+ M +:+ D +:+ "T" +:+ h +:+ m +:+ s +:+ "Z" ∧
  Helpers.makeDateShort now (Some date) = Y +:+ M +:+ D ∧
  Helpers.getScope now region (Some date)
  = Y +:+ M +:+ D +:+ "/" +:+ region +:+ "/s3/aws4_request".
Proof.
  intros HY HM HD Hh Hm Hs Hiso.
  unfold Helpers.getScope, Helpers.makeDateLong, Helpers.makeDateShort.
  simpl. rewrite Hiso. clear Hiso.
  explode Y. explode M. explode D. explode h. explode m. explode s.
  assert (H0 : ∀ x, JS.substr 0 0 x = EmptyString) by (by intros [|??]).
  rewrite !H0. repeat split.
Qed.

Lemma date_stamps_witness :
  Helpers.makeDateLong someDate (Some someDate) = "20170807T162859Z" ∧
  Helpers.makeDateShort someDate (Some someDate) = "20170807" ∧
  Helpers.getScope someDate "us-east-1" (Some someDate)
  = "20170807/us-east-1/s3/aws4_request".
Proof.
  apply (date_stamps someDate someDate "us-east-1"
           "2017" "08" "07" "16" "28" "59" ".889Z"); reflexivity.
Defined.

(** X29: for every given date, the text of [makeDateLong] begins with the
    text of [makeDateShort], and so does the scope of [getScope], whatever
    the clock shows at each of the calls. *)
Theorem makeDateLong_starts_with_makeDateShort (now now' now'' : JS.Date)
    (date : JS.Date) (region : string) :
  JS.startsWith (Helpers.makeDateShort now (Some date))
    (Helpers.makeDateLong now' (Some date))
  = true ∧
  JS.startsWith (Helpers.makeDateShort now (Some date))
    (Helpers.getScope now'' region (Some date))
  = true.
Proof.
  split.
  - set (datestr := JS.toISOString date).
    assert (Hlong : Helpers.makeDateLong now' (Some date)
                    = Helpers.makeDateShort now (Some date)
                      +:+ JS.substr 10 3 datestr +:+ JS.substr 14 2 datestr
                      +:+ JS.substr 17 2 datestr +:+ "Z").
    { unfold Helpers.makeDateLong, Helpers.makeDateShort. simpl. fold datestr.
      rewrite (substr_split 8 2 3). by rewrite !String_app_assoc. }
    rewrite Hlong. apply startsWith_app.
  - unfold Helpers.getScope.
    change (Helpers.makeDateShort now'' (Some date))
      with (Helpers.makeDateShort now (Some date)).
    apply startsWith_app.
Qed.
